(** * PlanetSimulation: the class [Planet] and the main loop of [planet.py]

    The development embeds the class [Planet] of [planet.py] (its
    constructor, [attraction], [update_position] and [draw]) and the body
    of the main loop, and proves properties of them.

    Conventions of the embedding.
    - Numbers. The attributes of a body hold Python numbers, on which
      [planet.py] uses [+], [-], [*], [/], [** 2], [math.sqrt],
      [math.atan2], [math.cos], [math.sin] and [int]. Any of these can
      raise in Python ([ZeroDivisionError], [OverflowError],
      [ValueError]), and on floats all of them round. The program is
      therefore written over an interface, [Arith], whose operations
      return a number or raise, and the general theorems hold for every
      implementation of it. Two implementations are given: [binary64],
      the IEEE 754 double precision arithmetic of Python floats, and
      [exact], arithmetic on real numbers without rounding.
    - Objects live in a store indexed by references; [self == planet]
      compares references, since [Planet] defines no [__eq__].
    - A method is a computation over the store that either returns a value
      or raises; the store reached when an exception is raised is kept,
      as the assignments made before the [raise] stay visible in Python.
    - The window is represented by the calls made on it; how [pygame]
      answers a call is a parameter, so that any call may raise. *)

From Stdlib Require Import Reals Lra Lia List ZArith Bool PeanoNat.
From Stdlib Require Import Floats FunctionalExtensionality.
Import ListNotations.

Set Warnings "-inexact-float".

(** ** Outcomes *)

Inductive exn : Type :=
| ZeroDivisionError
| ValueError
| OverflowError.

Inductive result (A : Type) : Type :=
| Ok (a : A)
| Raise (e : exn).

Arguments Ok {A} a.
Arguments Raise {A} e.

(** Evaluation of an expression whose operands may raise: the first
    exception ends it. *)
Definition and_then {A B : Type} (r : result A) (k : A -> result B) :
    result B :=
  match r with
  | Ok a => k a
  | Raise e => Raise e
  end.

Declare Scope py_scope.
Delimit Scope py_scope with py.
Notation "v <~ r ;; k" := (and_then r (fun v => k))
  (at level 100, r at next level, right associativity) : py_scope.
Open Scope py_scope.

(** [f] on the elements of [l] from the left, as a list comprehension
    evaluates. *)
Fixpoint map_result {A B : Type} (f : A -> result B) (l : list A) :
    result (list B) :=
  match l with
  | [] => Ok []
  | a :: rest =>
      b <~ f a ;; more <~ map_result f rest ;; Ok (b :: more)
  end.

(** ** Python numbers *)

(** The operations [planet.py] applies to numbers. [of_int] and
    [of_float] give the number denoted by an [int] and by a [float]
    constant; [pow_2 a] is [a ** 2] and [py_int a] is [int (a)]. *)
Class Arith (num : Type) : Type := {
  of_int : Z -> num;
  of_float : float -> num;
  py_add : num -> num -> result num;
  py_sub : num -> num -> result num;
  py_mul : num -> num -> result num;
  truediv : num -> num -> result num;
  pow_2 : num -> result num;
  math_sqrt : num -> result num;
  math_atan2 : num -> num -> result num;
  math_cos : num -> result num;
  math_sin : num -> result num;
  py_int : num -> result Z
}.

(** ** The store and the monad of methods *)

Definition loc : Type := nat.
Bind Scope nat_scope with loc.

Module Obj.

(** The instance attributes set by [__init__]. [velocity] is the
    two-element list [[vx, vy]], [orbit] the list of recorded
    positions, oldest first. *)
Record t (num : Type) : Type := mk {
  x : num;
  y : num;
  radius : Z;
  color : Z * Z * Z;
  mass : num;
  velocity : num * num;
  orbit : list (num * num);
  sun : bool;
  distance_to_sun : num
}.

Arguments mk {num}.
Arguments x {num}.
Arguments y {num}.
Arguments radius {num}.
Arguments color {num}.
Arguments mass {num}.
Arguments velocity {num}.
Arguments orbit {num}.
Arguments sun {num}.
Arguments distance_to_sun {num}.

Section Setters.
Context {num : Type}.

(** Attribute assignment. *)
Definition set_x (v : num) (p : t num) : t num :=
  mk v (y p) (radius p) (color p) (mass p) (velocity p) (orbit p) (sun p)
     (distance_to_sun p).
Definition set_y (v : num) (p : t num) : t num :=
  mk (x p) v (radius p) (color p) (mass p) (velocity p) (orbit p) (sun p)
     (distance_to_sun p).
Definition set_velocity (v : num * num) (p : t num) : t num :=
  mk (x p) (y p) (radius p) (color p) (mass p) v (orbit p) (sun p)
     (distance_to_sun p).
Definition set_orbit (v : list (num * num)) (p : t num) : t num :=
  mk (x p) (y p) (radius p) (color p) (mass p) (velocity p) v (sun p)
     (distance_to_sun p).
Definition set_sun (v : bool) (p : t num) : t num :=
  mk (x p) (y p) (radius p) (color p) (mass p) (velocity p) (orbit p) v
     (distance_to_sun p).
Definition set_distance_to_sun (v : num) (p : t num) : t num :=
  mk (x p) (y p) (radius p) (color p) (mass p) (velocity p) (orbit p)
     (sun p) v.

(** [obj.velocity[0] = v] and [obj.velocity[1] = v]. *)
Definition set_velocity_0 (v : num) (p : t num) : t num :=
  set_velocity (v, snd (velocity p)) p.
Definition set_velocity_1 (v : num) (p : t num) : t num :=
  set_velocity (fst (velocity p), v) p.

End Setters.

End Obj.

Section Store.
Context {num : Type}.

Definition heap : Type := loc -> Obj.t num.

Definition upd (l : loc) (p : Obj.t num) (h : heap) : heap :=
  fun l' => if Nat.eqb l' l then p else h l'.

(** A computation runs on a store and yields an outcome and a store. *)
Definition M (A : Type) : Type := heap -> result A * heap.

Definition ret {A : Type} (a : A) : M A := fun h => (Ok a, h).

Definition bind {A B : Type} (m : M A) (k : A -> M B) : M B :=
  fun h =>
    match m h with
    | (Ok a, h') => k a h'
    | (Raise e, h') => (Raise e, h')
    end.

(** An expression that reads no attribute. *)
Definition lift {A : Type} (r : result A) : M A := fun h => (r, h).

(** [obj.attr] and [obj.attr = ...]. *)
Definition getattr {A : Type} (l : loc) (attr : Obj.t num -> A) : M A :=
  fun h => (Ok (attr (h l)), h).

Definition modify (l : loc) (f : Obj.t num -> Obj.t num) : M unit :=
  fun h => (Ok tt, upd l (f (h l)) h).

End Store.

Arguments heap num : clear implicits.
Arguments M num A : clear implicits.

Notation "v <- m ;; k" := (bind m (fun v => k))
  (at level 100, m at next level, right associativity) : py_scope.
Notation "m ;;; k" := (bind m (fun _ => k))
  (at level 100, right associativity) : py_scope.

(** ** The window *)

(** Screen dimensions. *)
Definition WIDTH : Z := 1600.
Definition HEIGHT : Z := 950.

(** Color constants. *)
Definition WHITE : Z * Z * Z := (167, 185, 214)%Z.
Definition YELLOW : Z * Z * Z := (255, 255, 0)%Z.
Definition BLUE : Z * Z * Z := (100, 149, 237)%Z.
Definition RED : Z * Z * Z := (188, 39, 50)%Z.
Definition DARK_GREY : Z * Z * Z := (80, 78, 81)%Z.
Definition ORANGE : Z * Z * Z := (227, 149, 59)%Z.
Definition GOLD : Z * Z * Z := (227, 180, 98)%Z.
Definition LIGHT_BLUE : Z * Z * Z := (116, 182, 227)%Z.
Definition DARK_BLUE : Z * Z * Z := (55, 93, 173)%Z.

(** The calls made on the window, in the order they are made:
    [WIN.fill], [pygame.draw.lines], [pygame.draw.circle], [win.blit] and
    [pygame.display.update]; [surface] is the type of rendered texts. *)
Inductive call (num surface : Type) : Type :=
| Fill (color : Z * Z * Z)
| Lines (color : Z * Z * Z) (closed : bool) (points : list (num * num))
    (width : Z)
| Circle (color : Z * Z * Z) (center : Z * Z) (radius : Z)
| Blit (source : surface) (dest : num * num)
| Update.

Arguments Fill {num surface} color.
Arguments Lines {num surface} color closed points width.
Arguments Circle {num surface} color center radius.
Arguments Blit {num surface} source dest.
Arguments Update {num surface}.

(** What the program uses of [pygame]: a rendered text is a surface with
    a width and a height; [render_km v] stands for
    [FONT.render (f"{round (v, 1)} km", 1, (255, 255, 255))], the text
    and its metrics being left to the font; [answer c] is how the call
    [c] on the window ends. Nothing is assumed of the library: the
    rendering and every call may raise. *)
Record Pygame (num : Type) : Type := mkPygame {
  surface : Type;
  render_km : num -> result surface;
  get_width : surface -> Z;
  get_height : surface -> Z;
  answer : call num surface -> result unit
}.

Arguments surface {num} p.
Arguments render_km {num} p v.
Arguments get_width {num} p s.
Arguments get_height {num} p s.
Arguments answer {num} p c.

(** A computation that draws: the calls it has made on the window, the
    last of which may have raised, and how it ended. The calls made
    before an exception stay made. *)
Definition W {num : Type} (F : Pygame num) (A : Type) : Type :=
  list (call num (surface F)) * result A.

Definition emit {num : Type} {F : Pygame num} (c : call num (surface F)) :
    W F unit :=
  ([c], answer F c).

Definition eval {num : Type} {F : Pygame num} {A : Type} (r : result A) :
    W F A :=
  ([], r).

Definition then_draw {num : Type} {F : Pygame num} {A B : Type}
    (m : W F A) (k : A -> W F B) : W F B :=
  match m with
  | (calls, Ok a) => (calls ++ fst (k a), snd (k a))
  | (calls, Raise e) => (calls, Raise e)
  end.

Notation "v <-- m ;; k" := (then_draw m (fun v => k))
  (at level 100, m at next level, right associativity) : py_scope.

(** ** The class [Planet] *)

Module Planet.
Import Obj.

(** Class constants. They are evaluated once, when the class is created,
    on the constants of the source: [AU], [G] and [SCALE] are floats,
    [TIMESTEP] is an [int]. *)
Definition AU : float := 149.6e6 * 1000.
Definition G : float := 6.67430e-11.
Definition SCALE : float := 150 / AU.
Definition TIMESTEP : Z := 3600 * 24.

Section Methods.
Context {num : Type} `{Arith num}.

(** [Planet.__init__ (self, x, y, radius, color, mass)]. *)
Definition __init__ (self : loc) (x0 y0 : num) (radius0 : Z)
    (color0 : Z * Z * Z) (mass0 : num) : M num unit :=
  modify self (fun _ =>
    Obj.mk x0 y0 radius0 color0 mass0 (of_int 0, of_int 0) [] false
      (of_int 0)).

(** A position in metres as a point of the window:
    [(p[0] * self.SCALE + WIDTH / 2, p[1] * self.SCALE + HEIGHT / 2)]. *)
Definition to_screen (q : num * num) : result (num * num) :=
  a <~ py_mul (fst q) (of_float SCALE) ;;
  half_w <~ truediv (of_int WIDTH) (of_int 2) ;;
  sx <~ py_add a half_w ;;
  b <~ py_mul (snd q) (of_float SCALE) ;;
  half_h <~ truediv (of_int HEIGHT) (of_int 2) ;;
  sy <~ py_add b half_h ;;
  Ok (sx, sy).

(** The blocks of [Planet.draw] for [self] in the state [p], [xy] being
    the screen position computed first: the polyline of the recorded
    positions, the circle, and the distance shown next to it. *)
Definition draw_trail (F : Pygame num) (p : Obj.t num) : W F unit :=
  if Nat.ltb 2 (length (orbit p))
  then
    updated_points <-- eval (map_result to_screen (orbit p)) ;;
    emit (Lines (color p) false updated_points 2)
  else eval (Ok tt).

Definition draw_circle (F : Pygame num) (p : Obj.t num) (xy : num * num) :
    W F unit :=
  cx <-- eval (py_int (fst xy)) ;;
  cy <-- eval (py_int (snd xy)) ;;
  emit (Circle (color p) (cx, cy) (radius p)).

Definition draw_distance (F : Pygame num) (p : Obj.t num) (xy : num * num) :
    W F unit :=
  if negb (sun p)
  then
    km <-- eval (truediv (distance_to_sun p) (of_int 1000)) ;;
    distance_text <-- eval (render_km F km) ;;
    half_w <-- eval (truediv (of_int (get_width F distance_text))
                             (of_int 2)) ;;
    bx <-- eval (py_sub (fst xy) half_w) ;;
    half_h <-- eval (truediv (of_int (get_height F distance_text))
                             (of_int 2)) ;;
    by_ <-- eval (py_sub (snd xy) half_h) ;;
    emit (Blit distance_text (bx, by_))
  else eval (Ok tt).

(** [Planet.draw (self, win)], for [self] in the state [p]: it reads
    [self] and draws. *)
Definition draw (F : Pygame num) (p : Obj.t num) : W F unit :=
  xy <-- eval (to_screen (x p, y p)) ;;
  _ <-- draw_trail F p ;;
  _ <-- draw_circle F p xy ;;
  draw_distance F p xy.

(** [Planet.attraction (self, other)]. *)
Definition attraction (self other : loc) : M num (num * num) :=
  ox <- getattr other x ;; sx <- getattr self x ;;
  dx <- lift (py_sub ox sx) ;;
  oy <- getattr other y ;; sy <- getattr self y ;;
  dy <- lift (py_sub oy sy) ;;
  dx2 <- lift (pow_2 dx) ;;
  dy2 <- lift (pow_2 dy) ;;
  sq <- lift (py_add dx2 dy2) ;;
  distance <- lift (math_sqrt sq) ;;
  other_sun <- getattr other sun ;;
  (if other_sun then modify self (set_distance_to_sun distance)
   else ret tt) ;;;
  sm <- getattr self mass ;;
  gm <- lift (py_mul (of_float G) sm) ;;
  om <- getattr other mass ;;
  gmm <- lift (py_mul gm om) ;;
  d2 <- lift (pow_2 distance) ;;
  force <- lift (truediv gmm d2) ;;
  angle <- lift (math_atan2 dy dx) ;;
  c <- lift (math_cos angle) ;;
  force_x <- lift (py_mul force c) ;;
  s <- lift (math_sin angle) ;;
  force_y <- lift (py_mul force s) ;;
  ret (force_x, force_y).

(** The [for planet in planets] loop of [update_position], with the
    running totals as accumulators. *)
Fixpoint sum_forces (self : loc) (planets : list loc)
    (total_fx total_fy : num) : M num (num * num) :=
  match planets with
  | [] => ret (total_fx, total_fy)
  | planet :: rest =>
      if Nat.eqb self planet then sum_forces self rest total_fx total_fy
      else
        f <- attraction self planet ;;
        total_fx <- lift (py_add total_fx (fst f)) ;;
        total_fy <- lift (py_add total_fy (snd f)) ;;
        sum_forces self rest total_fx total_fy
  end.

(** The rest of [update_position], from the division by the mass on,
    for the summed force [total]. *)
Definition integrate (self : loc) (total : num * num) : M num unit :=
  m <- getattr self mass ;;
  acceleration_x <- lift (truediv (fst total) m) ;;
  m <- getattr self mass ;;
  acceleration_y <- lift (truediv (snd total) m) ;;
  v0 <- getattr self (fun p => fst (velocity p)) ;;
  d0 <- lift (py_mul acceleration_x (of_int TIMESTEP)) ;;
  v0 <- lift (py_add v0 d0) ;;
  modify self (set_velocity_0 v0) ;;;
  v1 <- getattr self (fun p => snd (velocity p)) ;;
  d1 <- lift (py_mul acceleration_y (of_int TIMESTEP)) ;;
  v1 <- lift (py_add v1 d1) ;;
  modify self (set_velocity_1 v1) ;;;
  x0 <- getattr self x ;;
  v0 <- getattr self (fun p => fst (velocity p)) ;;
  s0 <- lift (py_mul v0 (of_int TIMESTEP)) ;;
  x0 <- lift (py_add x0 s0) ;;
  modify self (set_x x0) ;;;
  y0 <- getattr self y ;;
  v1 <- getattr self (fun p => snd (velocity p)) ;;
  s1 <- lift (py_mul v1 (of_int TIMESTEP)) ;;
  y0 <- lift (py_add y0 s1) ;;
  modify self (set_y y0) ;;;
  modify self (fun p => set_orbit (orbit p ++ [(x p, y p)]) p).

(** [Planet.update_position (self, planets)]. *)
Definition update_position (self : loc) (planets : list loc) : M num unit :=
  total <- sum_forces self planets (of_int 0) (of_int 0) ;;
  integrate self total.

End Methods.
End Planet.

(** ** The main loop *)

Section Main.
Context {num : Type} `{Arith num}.

(** [for planet in todo: planet.update_position (planets)]: the updates
    of one frame of [main], without the drawing. *)
Fixpoint for_each (todo planets : list loc) : M num unit :=
  match todo with
  | [] => ret tt
  | planet :: rest =>
      Planet.update_position planet planets ;;; for_each rest planets
  end.

Definition tick (planets : list loc) : M num unit := for_each planets planets.

(** [k] frames of updates. *)
Fixpoint run (k : nat) (planets : list loc) : M num unit :=
  match k with
  | O => ret tt
  | S k' => tick planets ;;; run k' planets
  end.



(** [body = Planet (x * Planet.AU, 0, radius, color, mass);
    body.velocity[1] = v * 1000], the new object being the one at
    reference [l]. *)
Definition new_planet (l : loc) (x_au : num) (radius0 : Z)
    (color0 : Z * Z * Z) (mass0 v_km : num) : M num unit :=
  x0 <- lift (py_mul x_au (of_float Planet.AU)) ;;
  Planet.__init__ l x0 (of_int 0) radius0 color0 mass0 ;;;
  v <- lift (py_mul v_km (of_int 1000)) ;;
  modify l (Obj.set_velocity_1 v).

(** The nine objects of [main] and the list [planets], the references
    [0] to [8] standing for the objects in creation order. *)
Definition main_setup : M num (list loc) :=
  Planet.__init__ 0 (of_int 0) (of_int 0) 30 YELLOW (of_float 1.98892e30) ;;;
  modify 0 (Obj.set_sun true) ;;;
  new_planet 1 (of_float 0.387) 8 DARK_GREY (of_float 3.30e23)
    (of_float (-47.4)) ;;;
  new_planet 2 (of_float 0.723) 14 WHITE (of_float 4.8685e24)
    (of_float (-35.02)) ;;;
  new_planet 3 (of_int (-1)) 16 BLUE (of_float 5.9742e24)
    (of_float 29.783) ;;;
  new_planet 4 (of_float (-1.524)) 12 RED (of_float 6.39e23)
    (of_float 24.077) ;;;
  new_planet 5 (of_float 5.203) 40 ORANGE (of_float 1.898e27)
    (of_float 13.07) ;;;
  new_planet 6 (of_float 9.583) 35 GOLD (of_float 5.683e26)
    (of_float 9.69) ;;;
  new_planet 7 (of_float 19.22) 25 LIGHT_BLUE (of_float 8.681e25)
    (of_float 6.81) ;;;
  new_planet 8 (of_float 30.05) 24 DARK_BLUE (of_float 1.024e26)
    (of_float 5.43) ;;;
  ret [0; 1; 2; 3; 4; 5; 6; 7; 8]%nat.

(** Storage before any object is created in it. *)
Definition blank : heap num :=
  fun _ =>
    Obj.mk (of_int 0) (of_int 0) 0 (0, 0, 0)%Z (of_int 0)
      (of_int 0, of_int 0) [] false (of_int 0).

Definition main_planets : list loc := [0; 1; 2; 3; 4; 5; 6; 7; 8]%nat.

(** The store when [main] enters its loop. *)
Definition main_store : heap num := snd (main_setup blank).

End Main.

(** ** Reference definitions used in the statements *)

Section Reference.
Context {num : Type} `{Arith num}.

(** The position of a body, as the pair recorded in [orbit]. *)
Definition position (p : Obj.t num) : num * num := (Obj.x p, Obj.y p).

(** [math.sqrt (dx ** 2 + dy ** 2)]. *)
Definition hypot (dx dy : num) : result num :=
  dx2 <~ pow_2 dx ;;
  dy2 <~ pow_2 dy ;;
  sq <~ py_add dx2 dy2 ;;
  math_sqrt sq.

(** The distance from [s] to [o] as [attraction] computes it. *)
Definition separation (s o : Obj.t num) : result num :=
  dx <~ py_sub (Obj.x o) (Obj.x s) ;;
  dy <~ py_sub (Obj.y o) (Obj.y s) ;;
  hypot dx dy.

(** The force between masses [ms] and [mo] for the offsets [dx], [dy]
    and the distance [distance], as [attraction] computes it. *)
Definition pull (ms mo dx dy distance : num) : result (num * num) :=
  gm <~ py_mul (of_float Planet.G) ms ;;
  gmm <~ py_mul gm mo ;;
  d2 <~ pow_2 distance ;;
  force <~ truediv gmm d2 ;;
  angle <~ math_atan2 dy dx ;;
  c <~ math_cos angle ;;
  force_x <~ py_mul force c ;;
  s <~ math_sin angle ;;
  force_y <~ py_mul force s ;;
  Ok (force_x, force_y).

(** The force of [o] on [s]. *)
Definition gravity (s o : Obj.t num) : result (num * num) :=
  dx <~ py_sub (Obj.x o) (Obj.x s) ;;
  dy <~ py_sub (Obj.y o) (Obj.y s) ;;
  distance <~ hypot dx dy ;;
  pull (Obj.mass s) (Obj.mass o) dx dy distance.

(** The store after one [attraction (self, other)]. *)
Definition seen (self other : loc) (h : heap num) : heap num :=
  match separation (h self) (h other) with
  | Ok distance =>
      if Obj.sun (h other)
      then upd self (Obj.set_distance_to_sun distance (h self)) h
      else h
  | Raise _ => h
  end.

(** The members of [planets] that [update_position] does not skip. *)
Definition others (self : loc) (planets : list loc) : list loc :=
  filter (fun planet => negb (Nat.eqb self planet)) planets.

(** [total_fx += fx; total_fy += fy]. *)
Definition add_force (total f : num * num) : result (num * num) :=
  total_fx <~ py_add (fst total) (fst f) ;;
  total_fy <~ py_add (snd total) (snd f) ;;
  Ok (total_fx, total_fy).

(** The forces of the bodies [sources] on the body in state [s], added
    to [total] one after the other, from the left. *)
Fixpoint add_up (total : num * num) (s : Obj.t num)
    (sources : list (Obj.t num)) : result (num * num) :=
  match sources with
  | [] => Ok total
  | o :: rest =>
      f <~ gravity s o ;;
      total <~ add_force total f ;;
      add_up total s rest
  end.

(** The net force on [self] from the other members of [planets], all
    read in the store [h], summed from [(0, 0)] in list order. *)
Definition total_force (self : loc) (planets : list loc) (h : heap num) :
    result (num * num) :=
  add_up (of_int 0, of_int 0) (h self) (map h (others self planets)).

(** The body that [integrate] leaves when nothing raises: the velocity
    advanced by acceleration times [TIMESTEP], then the position by the
    new velocity times [TIMESTEP], and the new position recorded. *)
Definition advance (total : num * num) (p : Obj.t num) : result (Obj.t num) :=
  acceleration_x <~ truediv (fst total) (Obj.mass p) ;;
  acceleration_y <~ truediv (snd total) (Obj.mass p) ;;
  d0 <~ py_mul acceleration_x (of_int Planet.TIMESTEP) ;;
  v0 <~ py_add (fst (Obj.velocity p)) d0 ;;
  d1 <~ py_mul acceleration_y (of_int Planet.TIMESTEP) ;;
  v1 <~ py_add (snd (Obj.velocity p)) d1 ;;
  s0 <~ py_mul v0 (of_int Planet.TIMESTEP) ;;
  x' <~ py_add (Obj.x p) s0 ;;
  s1 <~ py_mul v1 (of_int Planet.TIMESTEP) ;;
  y' <~ py_add (Obj.y p) s1 ;;
  Ok (Obj.mk x' y' (Obj.radius p) (Obj.color p) (Obj.mass p) (v0, v1)
        (Obj.orbit p ++ [(x', y')]) (Obj.sun p) (Obj.distance_to_sun p)).


(** Two stores that differ at most in [self.distance_to_sun]. *)
Definition dts_only (self : loc) (h h' : heap num) : Prop :=
  (forall l, l <> self -> h' l = h l) /\
  exists d, h' self = Obj.set_distance_to_sun d (h self).

(** Stores equal up to the [distance_to_sun] of their bodies. *)
Definition dts_any (h h' : heap num) : Prop :=
  forall l, exists d, h' l = Obj.set_distance_to_sun d (h l).

(** Two states of a body that differ at most in velocity, position and
    recorded positions. *)
Definition moved (p p' : Obj.t num) : Prop :=
  Obj.radius p' = Obj.radius p /\
  Obj.color p' = Obj.color p /\
  Obj.mass p' = Obj.mass p /\
  Obj.sun p' = Obj.sun p /\
  Obj.distance_to_sun p' = Obj.distance_to_sun p.

(** The two-pass scheme the specification describes: first the forces on
    every body, all summed on the positions before the tick, then the
    updates of velocity and position, body by body. *)
Fixpoint force_pass (todo planets : list loc) : M num (list (num * num)) :=
  match todo with
  | [] => ret []
  | b :: rest =>
      total <- Planet.sum_forces b planets (of_int 0) (of_int 0) ;;
      totals <- force_pass rest planets ;;
      ret (total :: totals)
  end.

Fixpoint update_pass (todo : list loc) (totals : list (num * num)) :
    M num unit :=
  match todo, totals with
  | b :: rest, total :: totals' =>
      Planet.integrate b total ;;; update_pass rest totals'
  | _, _ => ret tt
  end.

Definition tick_two_pass (planets : list loc) : M num unit :=
  totals <- force_pass planets planets ;;
  update_pass planets totals.

(** Operations that cannot raise. *)
Definition total2 (op : num -> num -> result num) : Prop :=
  forall a b, exists c, op a b = Ok c.

End Reference.

(** ** Arithmetic without rounding *)

(** The real number that a float represents ([0] for infinities and
    NaN, which no constant of the program is). *)
Definition float_value (f : float) : R :=
  match Prim2SF f with
  | S754_finite s m e =>
      (IZR (cond_Zopp s (Z.pos m)) *
       (if (0 <=? e)%Z then IZR (2 ^ e) else / IZR (2 ^ (- e))))%R
  | _ => 0%R
  end.

(** The angle of the point [(x, y)], in [(-PI, PI]], and [0] at the
    origin. *)
Definition atan2 (y x : R) : R :=
  if Rlt_dec 0 x then atan (y / x)
  else if Rlt_dec x 0 then
    if Rle_dec 0 y then atan (y / x) + PI else atan (y / x) - PI
  else if Rlt_dec 0 y then PI / 2
  else if Rlt_dec y 0 then - (PI / 2)
  else 0.

(** The integer towards zero. *)
Definition trunc (v : R) : Z :=
  if Rle_dec 0 v then Int_part v else (- Int_part (- v))%Z.

(** Real numbers with the exact operations: nothing rounds and nothing
    overflows; [/] raises on a zero divisor and [math.sqrt] below
    zero. *)
#[export] Instance exact : Arith R := {|
  of_int := IZR;
  of_float := float_value;
  py_add a b := Ok (a + b)%R;
  py_sub a b := Ok (a - b)%R;
  py_mul a b := Ok (a * b)%R;
  truediv a b :=
    if Req_dec_T b 0 then Raise ZeroDivisionError else Ok (a / b)%R;
  pow_2 a := Ok (a ^ 2)%R;
  math_sqrt a :=
    if Rlt_dec a 0 then Raise ValueError else Ok (R_sqrt.sqrt a);
  math_atan2 y x := Ok (atan2 y x);
  math_cos a := Ok (cos a);
  math_sin a := Ok (sin a);
  py_int a := Ok (trunc a)
|}.

(** The distance between two bodies, and the body that a step leaves
    for the summed force [total], both without rounding. *)
Definition distance (s o : Obj.t R) : R :=
  R_sqrt.sqrt ((Obj.x o - Obj.x s) ^ 2 + (Obj.y o - Obj.y s) ^ 2).

Definition stepped (total : R * R) (p : Obj.t R) : Obj.t R :=
  let vx := (fst (Obj.velocity p) +
             fst total / Obj.mass p * of_int Planet.TIMESTEP)%R in
  let vy := (snd (Obj.velocity p) +
             snd total / Obj.mass p * of_int Planet.TIMESTEP)%R in
  let x' := (Obj.x p + vx * of_int Planet.TIMESTEP)%R in
  let y' := (Obj.y p + vy * of_int Planet.TIMESTEP)%R in
  Obj.mk x' y' (Obj.radius p) (Obj.color p) (Obj.mass p) (vx, vy)
    (Obj.orbit p ++ [(x', y')]) (Obj.sun p) (Obj.distance_to_sun p).

(** ** Python floats *)

(** The functions of the C library that [**] and the [math] module
    call. Their values are not fixed by IEEE 754; they are parameters. *)
Class Libm : Type := mkLibm {
  c_pow : float -> float -> float;
  c_atan2 : float -> float -> float;
  c_cos : float -> float;
  c_sin : float -> float
}.

(** The float nearest to an integer. *)
Definition float_of_Z (z : Z) : float :=
  SF2Prim (binary_normalize prec emax z 0 false).

(** The integer part of a finite float. *)
Definition float_trunc (f : float) : Z :=
  match Prim2SF f with
  | S754_finite s m e =>
      cond_Zopp s
        (if (0 <=? e)%Z then Z.pos m * 2 ^ e else Z.pos m / 2 ^ (- e))%Z
  | _ => 0%Z
  end.

(** How the [math] module turns the result [r] of a C function called on
    [args] into an outcome: a NaN from arguments that are not NaN is a
    [ValueError], an infinity from finite arguments an [OverflowError]
    if the function can overflow and a [ValueError] otherwise. *)
Definition math_result (can_overflow : bool) (args : list float) (r : float) :
    result float :=
  if is_nan r && forallb (fun a => negb (is_nan a)) args
  then Raise ValueError
  else if is_infinity r && forallb is_finite args
  then Raise (if can_overflow then OverflowError else ValueError)
  else Ok r.

(** [a ** 2] on a float, as the interpreter computes it: a NaN, an
    infinity, a zero and [1.0] or [-1.0] are answered without the C
    library; for any other [a] the library's [pow] is called on [-a]
    when [a < 0] and on [a] otherwise, with the exponent [2.0], and an
    infinite result is an [OverflowError]. The library is taken to
    report no error with a result that is neither infinite nor zero. *)
Definition float_pow_2 {L : Libm} (a : float) : result float :=
  if is_nan a then Ok a
  else if is_infinity a then Ok (abs a)
  else if (a =? 0)%float then Ok 0%float
  else if (abs a =? 1)%float then Ok 1%float
  else
    let r := c_pow (abs a) 2 in
    if is_infinity r then Raise OverflowError else Ok r.

(** IEEE 754 binary64 arithmetic, as Python applies it to floats: [+],
    [-] and [*] round and never raise; [/] raises on a zero divisor;
    [a ** 2] is [float_pow_2]; [int] raises on NaN and on the
    infinities. An [int] operand counts as the float it converts to. *)
#[export] Instance binary64 {L : Libm} : Arith float := {|
  of_int := float_of_Z;
  of_float f := f;
  py_add a b := Ok (a + b)%float;
  py_sub a b := Ok (a - b)%float;
  py_mul a b := Ok (a * b)%float;
  truediv a b :=
    if (b =? 0)%float then Raise ZeroDivisionError else Ok (a / b)%float;
  pow_2 := float_pow_2;
  math_sqrt a := math_result false [a] (PrimFloat.sqrt a);
  math_atan2 y x := math_result true [y; x] (c_atan2 y x);
  math_cos a := math_result false [a] (c_cos a);
  math_sin a := math_result false [a] (c_sin a);
  py_int a :=
    if is_nan a then Raise ValueError
    else if is_infinity a then Raise OverflowError
    else Ok (float_trunc a)
|}.

(** What IEEE 754 and the C standard fix of the library at the points
    used below: the square of [1e200] is out of range and the square of
    [1e-200] is below every positive float; the angles of east and west,
    their cosines and sines, with the value of [sin] at the float
    nearest to pi. *)
Definition pi_float : float := 0x1.921fb54442d18p+1.

Record conforming (L : Libm) : Prop := {
  pow_huge : c_pow 1e200 2 = infinity;
  pow_tiny : c_pow 1e-200 2 = 0%float;
  atan2_east : c_atan2 0 1 = 0%float;
  atan2_west : c_atan2 0 (-1) = pi_float;
  cos_zero : c_cos 0 = 1%float;
  sin_zero : c_sin 0 = 0%float;
  cos_pi : c_cos pi_float = (-1)%float;
  sin_pi : c_sin pi_float = 0x1.1a62633145c07p-53%float
}.

(** ** Stores used as concrete inputs *)

(** In exact arithmetic: a body at rest at [(x0, 0)] with mass [1], as
    [__init__] leaves it. *)
Definition at_rest (x0 : R) : Obj.t R :=
  Obj.mk x0 0%R 1 WHITE 1%R (0%R, 0%R) [] false 0%R.

(** Two unit masses at rest, one unit of length apart. *)
Definition pair_store : heap R :=
  fun l => match l with O => at_rest 0 | _ => at_rest 1 end.

(** Where the first of the two is after its own update. *)
Definition pair_reach : R :=
  (of_float Planet.G * of_int Planet.TIMESTEP * of_int Planet.TIMESTEP)%R.

(** A lone body of unit mass drifting along the first axis. *)
Definition drifting : Obj.t R :=
  Obj.mk 0%R 0%R 1 WHITE 1%R (1%R, 0%R) [] true 0%R.

Definition drift_store : heap R := fun _ => drifting.

(** A lone primary at rest at the origin. *)
Definition sun_store : heap R := fun _ => Obj.set_sun true (at_rest 0).

(** Two bodies of unit mass at the same place. *)
Definition clash_store : heap R := fun _ => at_rest 0.

(** A flagged unit mass at the origin and a planet of unit mass one unit
    of length away, both at rest. *)
Definition star_store : heap R :=
  fun l => match l with
           | O => Obj.set_sun true (at_rest 0)
           | _ => at_rest 1
           end.

(** On floats: a body of mass [1.0] at rest at [(x0, 0.0)]. *)
Definition body_at (x0 : float) : Obj.t float :=
  Obj.mk x0 0%float 1 WHITE 1%float (0%float, 0%float) [] false 0%float.

(** A body at the origin and a body at [(gap, 0.0)]. *)
Definition span_store (gap : float) : heap float :=
  fun l => match l with O => body_at 0 | _ => body_at gap end.

(** The same with the second body flagged as the sun. *)
Definition star_span_store (gap : float) : heap float :=
  fun l => match l with
           | O => body_at 0
           | _ => Obj.set_sun true (body_at gap)
           end.


(** A library that accepts every call, with a font whose texts all have
    the same size. *)
Definition plain_font (num : Type) : Pygame num :=
  mkPygame num num (fun v => Ok v) (fun _ => 40%Z) (fun _ => 16%Z)
    (fun _ => Ok tt).

(** A table with the values that [conforming] asks for, and arbitrary
    ones elsewhere: the conditions of [conforming] can be met. *)
Definition compass_libm : Libm := {|
  c_pow a b := (a * a)%float;
  c_atan2 y x := if (x <? 0)%float then pi_float else 0%float;
  c_cos a := if (a =? 0)%float then 1%float else (-1)%float;
  c_sin a := if (a =? 0)%float then 0%float else 0x1.1a62633145c07p-53%float
|}.

(** * Properties *)

(** Simplification of attribute reads after assignments, and case
    analysis on the next operation of a chain. *)
Ltac obj_simpl :=
  cbn [Obj.set_x Obj.set_y Obj.set_velocity Obj.set_velocity_0
       Obj.set_velocity_1 Obj.set_orbit Obj.set_distance_to_sun Obj.set_sun
       Obj.x Obj.y Obj.radius Obj.color Obj.mass Obj.velocity Obj.orbit
       Obj.sun Obj.distance_to_sun fst snd] in *.

Ltac next_op :=
  match goal with
  | |- context [match ?r with Ok _ => _ | Raise _ => _ end] =>
      lazymatch r with
      | context [match _ with Ok _ => _ | Raise _ => _ end] => fail
      | _ => destruct r; try reflexivity
      end
  end.

Section Generic.
Context {num : Type} `{Arith num}.

(** ** The store *)

Lemma upd_same (l : loc) (p : Obj.t num) (h : heap num) : upd l p h l = p.
Proof. unfold upd. now rewrite Nat.eqb_refl. Qed.

Lemma upd_other (l l' : loc) (p : Obj.t num) (h : heap num) :
  l' <> l -> upd l p h l' = h l'.
Proof.
  intros E. unfold upd. apply Nat.eqb_neq in E. now rewrite E.
Qed.

Lemma upd_upd (l : loc) (p q : Obj.t num) (h : heap num) :
  upd l q (upd l p h) = upd l q h.
Proof.
  apply functional_extensionality. intros l'.
  unfold upd. now destruct (Nat.eqb l' l).
Qed.

Lemma upd_id (l : loc) (h : heap num) : upd l (h l) h = h.
Proof.
  apply functional_extensionality. intros l'.
  unfold upd. destruct (Nat.eqb l' l) eqn:E; [| reflexivity].
  apply Nat.eqb_eq in E. now subst l'.
Qed.

Lemma mass_upd_dts (self l : loc) (d : num) (h : heap num) :
  Obj.mass (upd self (Obj.set_distance_to_sun d (h self)) h l) =
  Obj.mass (h l).
Proof.
  unfold upd. destruct (Nat.eqb l self) eqn:E; [| reflexivity].
  apply Nat.eqb_eq in E. now subst l.
Qed.

(** ** [attraction] in closed form *)

(** [attraction] returns or raises as the expression [gravity] does, on
    the attributes found in the store of the call, and leaves the store
    [seen]. *)
Lemma attraction_run (self other : loc) (h : heap num) :
  Planet.attraction self other h =
    (gravity (h self) (h other), seen self other h).
Proof.
  unfold Planet.attraction, gravity, seen, separation, hypot, pull.
  unfold bind, lift, getattr, and_then.
  do 6 next_op.
  destruct (Obj.sun (h other)); unfold modify, ret;
    rewrite ?mass_upd_dts; repeat next_op.
Qed.

Lemma seen_other (self other l : loc) (h : heap num) :
  l <> self -> seen self other h l = h l.
Proof.
  intros E. unfold seen. destruct (separation _ _); [| reflexivity].
  destruct (Obj.sun (h other)); [| reflexivity].
  now apply upd_other.
Qed.

Lemma set_dts_same (p : Obj.t num) :
  Obj.set_distance_to_sun (Obj.distance_to_sun p) p = p.
Proof. now destruct p. Qed.

Lemma seen_frame (self other l : loc) (h : heap num) :
  exists d, seen self other h l = Obj.set_distance_to_sun d (h l).
Proof.
  assert (Hid : exists d, h l = Obj.set_distance_to_sun d (h l))
    by (eexists; symmetry; apply set_dts_same).
  unfold seen. destruct (separation _ _) as [d |]; [| exact Hid].
  destruct (Obj.sun (h other)); [| exact Hid].
  unfold upd. destruct (Nat.eqb l self) eqn:E; [| exact Hid].
  apply Nat.eqb_eq in E. subst l. now exists d.
Qed.

Lemma gravity_ignores_distance (d1 d2 : num) (s o : Obj.t num) :
  gravity (Obj.set_distance_to_sun d1 s) (Obj.set_distance_to_sun d2 o) =
  gravity s o.
Proof. reflexivity. Qed.

Lemma separation_ignores_distance (d1 d2 : num) (s o : Obj.t num) :
  separation (Obj.set_distance_to_sun d1 s) (Obj.set_distance_to_sun d2 o) =
  separation s o.
Proof. reflexivity. Qed.

(** ** Stores that differ in [distance_to_sun] only *)

Lemma dts_only_refl (self : loc) (h : heap num) : dts_only self h h.
Proof.
  split; [reflexivity |].
  eexists. symmetry. apply set_dts_same.
Qed.

Lemma dts_only_trans (self : loc) (h1 h2 h3 : heap num) :
  dts_only self h1 h2 -> dts_only self h2 h3 -> dts_only self h1 h3.
Proof.
  intros [Ho1 [d1 Hs1]] [Ho2 [d2 Hs2]]. split.
  - intros l Hl. now rewrite Ho2, Ho1.
  - exists d2. rewrite Hs2, Hs1. reflexivity.
Qed.

Lemma dts_only_seen (self other : loc) (h : heap num) :
  dts_only self h (seen self other h).
Proof.
  split; [intros l Hl; now apply seen_other | apply seen_frame].
Qed.

Lemma dts_only_frame (self l : loc) (h h' : heap num) :
  dts_only self h h' -> exists d, h' l = Obj.set_distance_to_sun d (h l).
Proof.
  intros [Ho Hs]. destruct (Nat.eq_dec l self) as [-> | Hne]; [exact Hs |].
  rewrite (Ho l Hne). eexists. symmetry. apply set_dts_same.
Qed.

Lemma dts_only_any (self : loc) (h h' : heap num) :
  dts_only self h h' -> dts_any h h'.
Proof. intros E l. now apply (dts_only_frame self l h h'). Qed.

Lemma dts_any_gravity (h h' : heap num) (a b : loc) :
  dts_any h h' -> gravity (h' a) (h' b) = gravity (h a) (h b).
Proof.
  intros E. destruct (E a) as [d1 ->], (E b) as [d2 ->]. reflexivity.
Qed.

Lemma dts_any_separation (h h' : heap num) (a b : loc) :
  dts_any h h' -> separation (h' a) (h' b) = separation (h a) (h b).
Proof.
  intros E. destruct (E a) as [d1 ->], (E b) as [d2 ->]. reflexivity.
Qed.

Lemma dts_any_seen (self other : loc) (h : heap num) :
  dts_any h (seen self other h).
Proof. intros l. apply seen_frame. Qed.

Lemma seen_seen (self other : loc) (h : heap num) :
  seen self other (seen self other h) = seen self other h.
Proof.
  unfold seen at 1.
  rewrite (dts_any_separation h _ self other (dts_any_seen self other h)).
  destruct (seen_frame self other other h) as [d0 Hd0].
  assert (Hsun : Obj.sun (seen self other h other) = Obj.sun (h other))
    by now rewrite Hd0.
  rewrite Hsun. unfold seen.
  destruct (separation (h self) (h other)) as [d |]; [| reflexivity].
  destruct (Obj.sun (h other)); [| reflexivity].
  rewrite upd_same, upd_upd. reflexivity.
Qed.

(** ** The force loop *)

Lemma add_up_ext (h h' : heap num) (self : loc) (l : list loc) :
  dts_any h h' ->
  forall acc, add_up acc (h' self) (map h' l) = add_up acc (h self) (map h l).
Proof.
  intros E. induction l as [| p rest IH]; intros acc; cbn [map add_up].
  - reflexivity.
  - rewrite (dts_any_gravity h h' self p E).
    destruct (gravity (h self) (h p)) as [f |]; cbn [and_then]; [| reflexivity].
    destruct (add_force acc f); cbn [and_then]; [apply IH | reflexivity].
Qed.

(** The loop returns or raises as the left-to-right sum of the forces
    does, all of them read in the store of the call. *)
Lemma sum_forces_run (self : loc) (planets : list loc) :
  forall (fx fy : num) (h : heap num),
    fst (Planet.sum_forces self planets fx fy h) =
      add_up (fx, fy) (h self) (map h (others self planets)).
Proof.
  unfold others.
  induction planets as [| p rest IH]; intros fx fy h;
    cbn [Planet.sum_forces filter map add_up].
  - reflexivity.
  - destruct (Nat.eqb self p); cbn [negb]; [apply IH |].
    cbn [map add_up]. unfold bind. rewrite attraction_run.
    destruct (gravity (h self) (h p)) as [f |]; cbn [and_then];
      [| reflexivity].
    unfold add_force, lift, and_then. cbn [fst snd].
    destruct (py_add fx (fst f)); [| reflexivity].
    destruct (py_add fy (snd f)); [| reflexivity].
    rewrite IH. apply add_up_ext, dts_any_seen.
Qed.

(** Whatever its outcome, the loop touches only [self.distance_to_sun]. *)
Lemma sum_forces_frame (self : loc) (planets : list loc) :
  forall (fx fy : num) (h : heap num),
    dts_only self h (snd (Planet.sum_forces self planets fx fy h)).
Proof.
  induction planets as [| p rest IH]; intros fx fy h;
    cbn [Planet.sum_forces].
  - apply dts_only_refl.
  - destruct (Nat.eqb self p); [apply IH |].
    unfold bind. rewrite attraction_run.
    destruct (gravity (h self) (h p)) as [f |]; [| apply dts_only_seen].
    unfold lift.
    destruct (py_add fx (fst f)); [| apply dts_only_seen].
    destruct (py_add fy (snd f)); [| apply dts_only_seen].
    eapply dts_only_trans; [apply dts_only_seen | apply IH].
Qed.

(** ** The integration half of [update_position] *)

Lemma moved_refl (p : Obj.t num) : moved p p.
Proof. repeat split. Qed.

Lemma moved_trans (p q r : Obj.t num) : moved p q -> moved q r -> moved p r.
Proof.
  unfold moved. intros (A1 & A2 & A3 & A4 & A5) (B1 & B2 & B3 & B4 & B5).
  repeat split; congruence.
Qed.

Lemma upd_partial_id (l : loc) (h : heap num) :
  h = upd l (Obj.set_x (Obj.x (h l))
               (Obj.set_velocity (Obj.velocity (h l)) (h l))) h.
Proof.
  rewrite <- (upd_id l h) at 1. f_equal. now destruct (h l).
Qed.

(** [integrate] returns exactly when [advance] does, and then leaves the
    body [advance] describes; when it raises, at most the velocity and
    the abscissa of [self] have been assigned. *)
Lemma integrate_run (self : loc) (total : num * num) (h : heap num) :
  match advance total (h self) with
  | Ok p' => Planet.integrate self total h = (Ok tt, upd self p' h)
  | Raise e =>
      exists v x1,
        Planet.integrate self total h =
          (Raise e,
           upd self (Obj.set_x x1 (Obj.set_velocity v (h self))) h)
  end.
Proof.
  unfold Planet.integrate, advance, bind, lift, getattr, modify, and_then.
  destruct (truediv (fst total) (Obj.mass (h self))) as [ax | e];
    [| eexists _, _; f_equal; apply upd_partial_id].
  destruct (truediv (snd total) (Obj.mass (h self))) as [ay | e];
    [| eexists _, _; f_equal; apply upd_partial_id].
  destruct (py_mul ax _) as [d0 | e];
    [| eexists _, _; f_equal; apply upd_partial_id].
  destruct (py_add (fst _) d0) as [v0 | e];
    [| eexists _, _; f_equal; apply upd_partial_id].
  rewrite !upd_same, ?upd_upd.
  obj_simpl.
  destruct (py_mul ay _) as [d1 | e].
  2:{ exists (v0, snd (Obj.velocity (h self))), (Obj.x (h self)).
      reflexivity. }
  destruct (py_add (snd _) d1) as [v1 | e].
  2:{ exists (v0, snd (Obj.velocity (h self))), (Obj.x (h self)).
      reflexivity. }
  rewrite !upd_same, ?upd_upd.
  obj_simpl.
  destruct (py_mul v0 _) as [s0 | e].
  2:{ exists (v0, v1), (Obj.x (h self)).
      reflexivity. }
  destruct (py_add (Obj.x _) s0) as [x' | e].
  2:{ exists (v0, v1), (Obj.x (h self)).
      reflexivity. }
  rewrite !upd_same, ?upd_upd.
  obj_simpl.
  destruct (py_mul v1 _) as [s1 | e].
  2:{ exists (v0, v1), x'. reflexivity. }
  destruct (py_add (Obj.y _) s1) as [y' | e].
  2:{ exists (v0, v1), x'. reflexivity. }
  rewrite !upd_same, ?upd_upd. reflexivity.
Qed.

Lemma advance_moved (total : num * num) (p p' : Obj.t num) :
  advance total p = Ok p' ->
  moved p p' /\ Obj.orbit p' = Obj.orbit p ++ [position p'].
Proof.
  unfold advance, and_then. intros E.
  repeat match type of E with
         | match ?r with Ok _ => _ | Raise _ => _ end = _ =>
             destruct r; [| discriminate]
         end.
  injection E as <-. repeat split.
Qed.

Lemma advance_ignores_distance (total : num * num) (d : num) (p : Obj.t num) :
  advance total (Obj.set_distance_to_sun d p) =
    (p' <~ advance total p ;; Ok (Obj.set_distance_to_sun d p')).
Proof.
  unfold advance, and_then. obj_simpl. repeat next_op.
Qed.

(** ** One step of one body *)

(** The ways [update_position] can end. The force loop leaves a store
    [h1] that differs from the store of the call in
    [self.distance_to_sun] only; the call raises as the force sum or the
    integration does, and otherwise puts [self] in the state [advance]
    describes. *)
Lemma update_position_cases (self : loc) (planets : list loc)
    (h : heap num) :
  let h1 := snd (Planet.sum_forces self planets (of_int 0) (of_int 0) h) in
  dts_only self h h1 /\
  match total_force self planets h with
  | Raise e => Planet.update_position self planets h = (Raise e, h1)
  | Ok total =>
      match advance total (h1 self) with
      | Ok p' =>
          Planet.update_position self planets h = (Ok tt, upd self p' h1)
      | Raise e =>
          exists v x1,
            Planet.update_position self planets h =
              (Raise e,
               upd self (Obj.set_x x1 (Obj.set_velocity v (h1 self))) h1)
      end
  end.
Proof.
  intros h1. split; [apply sum_forces_frame |].
  unfold total_force. rewrite <- sum_forces_run.
  unfold Planet.update_position, bind. subst h1.
  destruct (Planet.sum_forces self planets (of_int 0) (of_int 0) h)
    as [[total | e] h1]; cbn [fst snd]; [| reflexivity].
  apply integrate_run.
Qed.

(** A call that returns has advanced [self] by the summed force, read
    in the store of the call, and has touched no other body. *)
Lemma update_position_ok (self : loc) (planets : list loc)
    (h h' : heap num) :
  Planet.update_position self planets h = (Ok tt, h') ->
  (forall l, l <> self -> h' l = h l) /\
  exists total d,
    total_force self planets h = Ok total /\
    advance total (Obj.set_distance_to_sun d (h self)) = Ok (h' self) /\
    dts_only self h
      (snd (Planet.sum_forces self planets (of_int 0) (of_int 0) h)) /\
    Obj.set_distance_to_sun d (h self) =
      snd (Planet.sum_forces self planets (of_int 0) (of_int 0) h) self.
Proof.
  intros Hu.
  destruct (update_position_cases self planets h) as [Hf Hc].
  destruct (total_force self planets h) as [total | e] eqn:Ht;
    [| rewrite Hc in Hu; discriminate].
  destruct (advance total _) as [p' | e] eqn:Ha;
    [| destruct Hc as (v & x1 & Hc); rewrite Hc in Hu; discriminate].
  rewrite Hc in Hu. injection Hu as <-.
  pose proof Hf as [Ho [d Hd]]. split.
  - intros l Hl. rewrite upd_other by exact Hl. now apply Ho.
  - exists total, d. rewrite upd_same, <- Hd.
    split; [reflexivity |]. split; [exact Ha |].
    split; [exact Hf | reflexivity].
Qed.

Lemma update_position_orbit (self : loc) (planets : list loc)
    (h h' : heap num) :
  Planet.update_position self planets h = (Ok tt, h') ->
  Obj.orbit (h' self) = Obj.orbit (h self) ++ [position (h' self)].
Proof.
  intros Hu. apply update_position_ok in Hu.
  destruct Hu as [_ (total & d & _ & Ha & _)].
  apply advance_moved in Ha. destruct Ha as [_ Ho]. exact Ho.
Qed.

(** A call returns exactly when the force sum and the integration
    do. *)
Lemma update_position_returns (self : loc) (planets : list loc)
    (h : heap num) :
  (exists h', Planet.update_position self planets h = (Ok tt, h')) <->
  (exists total p',
     total_force self planets h = Ok total /\
     advance total (h self) = Ok p').
Proof.
  destruct (update_position_cases self planets h) as [Hf Hc].
  destruct Hf as [_ [d Hd]].
  destruct (total_force self planets h) as [total | e].
  - rewrite Hd, advance_ignores_distance in Hc.
    destruct (advance total (h self)) as [p' | e] eqn:Ha;
      cbn [and_then] in Hc.
    + split; eauto.
    + destruct Hc as (v & x1 & Hc). split.
      * intros [h' Hu]. rewrite Hc in Hu. discriminate.
      * intros (t & p' & Et & E). injection Et as <-. congruence.
  - split.
    + intros [h' Hu]. rewrite Hc in Hu. discriminate.
    + intros (t & p' & E & _). discriminate.
Qed.

(** ** Invariants of the loops, whatever the outcome *)

Section Invariant.

Variable P : heap num -> Prop.
Variable planets : list loc.

Hypothesis P_seen :
  forall self other d h,
    In self planets -> In other planets -> other <> self ->
    Obj.sun (h other) = true ->
    separation (h self) (h other) = Ok d ->
    P h -> P (upd self (Obj.set_distance_to_sun d (h self)) h).
Hypothesis P_move :
  forall self p' h,
    In self planets -> P h -> moved (h self) p' -> P (upd self p' h).

Lemma seen_inv (self other : loc) (h : heap num) :
  In self planets -> In other planets -> other <> self ->
  P h -> P (seen self other h).
Proof.
  intros Hs Ho Hne Hh. unfold seen.
  destruct (separation (h self) (h other)) as [d |] eqn:Hd; [| exact Hh].
  destruct (Obj.sun (h other)) eqn:Hsun; [| exact Hh].
  apply (P_seen self other d h); assumption.
Qed.

Lemma sum_forces_inv (self : loc) (todo : list loc) :
  In self planets -> incl todo planets ->
  forall fx fy h, P h -> P (snd (Planet.sum_forces self todo fx fy h)).
Proof.
  intros Hself. induction todo as [| p rest IH]; intros Hin fx fy h Hh;
    cbn [Planet.sum_forces].
  - exact Hh.
  - assert (Hrest : incl rest planets)
      by (intros q Hq; apply Hin; now right).
    destruct (Nat.eqb self p) eqn:E; [now apply IH |].
    apply Nat.eqb_neq in E.
    assert (Hs : P (seen self p h)).
    { apply seen_inv; [exact Hself | apply Hin; now left | congruence |
                       exact Hh]. }
    unfold bind. rewrite attraction_run.
    destruct (gravity (h self) (h p)) as [f |]; [| exact Hs].
    unfold lift.
    destruct (py_add fx (fst f)); [| exact Hs].
    destruct (py_add fy (snd f)); [| exact Hs].
    now apply IH.
Qed.

Lemma update_position_inv (self : loc) (h : heap num) :
  In self planets -> P h -> P (snd (Planet.update_position self planets h)).
Proof.
  intros Hself Hh.
  pose proof (sum_forces_inv self planets Hself (incl_refl _)
                (of_int 0) (of_int 0) h Hh) as H1.
  destruct (update_position_cases self planets h) as [_ Hc].
  destruct (total_force self planets h) as [total | e];
    [| now rewrite Hc].
  destruct (advance total _) as [p' | e] eqn:Ha.
  - rewrite Hc. cbn [snd]. apply P_move; [exact Hself | exact H1 |].
    now apply advance_moved in Ha.
  - destruct Hc as (v & x1 & ->). cbn [snd].
    apply P_move; [exact Hself | exact H1 |]. repeat split.
Qed.

Lemma for_each_inv (todo : list loc) :
  incl todo planets ->
  forall h, P h -> P (snd (for_each todo planets h)).
Proof.
  induction todo as [| p rest IH]; intros Hin h Hh; cbn [for_each].
  - exact Hh.
  - assert (Hrest : incl rest planets)
      by (intros q Hq; apply Hin; now right).
    unfold bind.
    assert (H1 : P (snd (Planet.update_position p planets h)))
      by (apply update_position_inv; [apply Hin; now left | exact Hh]).
    destruct (Planet.update_position p planets h) as [[[] | e] h1];
      cbn [snd] in *; [now apply IH | exact H1].
Qed.

Lemma run_inv (k : nat) : forall h, P h -> P (snd (run k planets h)).
Proof.
  induction k as [| k IH]; intros h Hh; cbn [run].
  - exact Hh.
  - unfold bind.
    pose proof (for_each_inv planets (incl_refl _) h Hh) as H1.
    fold (tick planets) in H1.
    destruct (tick planets h) as [[[] | e] h1];
      cbn [snd] in *; [now apply IH | exact H1].
Qed.

End Invariant.

(** ** Successful frames *)

Lemma NoDup_app_disjoint (l l' : list loc) (a : loc) :
  NoDup (l ++ l') -> In a l -> ~ In a l'.
Proof.
  induction l as [| b l IH]; intros Hnd Ha; [destruct Ha |].
  cbn in Hnd. inversion Hnd as [| ? ? Hb Hnd']. subst.
  destruct Ha as [-> | Ha]; [| now apply IH].
  intros Hc. apply Hb, in_or_app. now right.
Qed.

Lemma for_each_app (before after planets : list loc) (h h' : heap num) :
  for_each (before ++ after) planets h = (Ok tt, h') ->
  exists h_mid,
    for_each before planets h = (Ok tt, h_mid) /\
    for_each after planets h_mid = (Ok tt, h').
Proof.
  revert h. induction before as [| p rest IH]; intros h E; cbn in E |- *.
  - exists h. split; [reflexivity | exact E].
  - unfold bind in *.
    destruct (Planet.update_position p planets h) as [[[] | e] h1];
      [| discriminate].
    now apply IH.
Qed.

(** A successful frame over distinct bodies: every body of [todo] has one
    more position recorded, its position at the end of the frame, and
    the bodies outside [todo] are as before. *)
Lemma for_each_ok (todo planets : list loc) :
  NoDup todo ->
  forall h h',
    for_each todo planets h = (Ok tt, h') ->
    (forall l, ~ In l todo -> h' l = h l) /\
    (forall b, In b todo ->
       Obj.orbit (h' b) = Obj.orbit (h b) ++ [position (h' b)]).
Proof.
  induction 1 as [| p rest Hp Hnd IH]; intros h h' E; cbn [for_each] in E.
  - injection E as <-. split; [reflexivity | intros b []].
  - unfold bind in E.
    destruct (Planet.update_position p planets h) as [[[] | e] h1] eqn:Hu;
      [| discriminate].
    destruct (IH h1 h' E) as [Hout Hin].
    destruct (update_position_ok p planets h h1 Hu) as [Hfr _].
    split.
    + intros l Hl. rewrite Hout by (intros Hc; apply Hl; now right).
      apply Hfr. intros ->. apply Hl. now left.
    + intros b [<- | Hb].
      * rewrite (Hout p Hp). now apply update_position_orbit in Hu.
      * rewrite (Hin b Hb). f_equal. f_equal. apply Hfr.
        intros ->. contradiction.
Qed.

Lemma run_add (planets : list loc) (i j : nat) :
  forall h, run (i + j) planets h = (run i planets ;;; run j planets) h.
Proof.
  induction i as [| i IH]; intros h; cbn [run Nat.add].
  - reflexivity.
  - unfold bind in *. destruct (tick planets h) as [[[] | e] h1];
      [apply IH | reflexivity].
Qed.

Lemma run_split (planets : list loc) (i j : nat) (h h' : heap num) :
  run (i + j) planets h = (Ok tt, h') ->
  exists hi, run i planets h = (Ok tt, hi) /\ run j planets hi = (Ok tt, h').
Proof.
  rewrite run_add. unfold bind.
  destruct (run i planets h) as [[[] | e] hi]; [eauto | discriminate].
Qed.

Lemma run_one (planets : list loc) (h : heap num) :
  run 1 planets h = tick planets h.
Proof.
  cbn [run]. unfold bind, ret.
  now destruct (tick planets h) as [[[] | e] h1].
Qed.

(** The positions recorded over [k] successful frames. *)
Lemma run_orbit (planets : list loc) (b : loc) :
  NoDup planets -> In b planets ->
  forall k h h',
    run k planets h = (Ok tt, h') ->
    exists path,
      Obj.orbit (h' b) = Obj.orbit (h b) ++ path /\
      length path = k /\
      forall i, (i < k)%nat ->
        exists hi, run (S i) planets h = (Ok tt, hi) /\
                   nth_error path i = Some (position (hi b)).
Proof.
  intros Hnd Hb. induction k as [| k IH]; intros h h' E.
  - cbn in E. injection E as <-. exists []. rewrite app_nil_r.
    repeat split. intros i Hi. lia.
  - replace (S k) with (k + 1)%nat in E by lia.
    apply run_split in E. destruct E as [hk [Hk H1]].
    destruct (IH h hk Hk) as [path [Ho [Hlen Hnth]]].
    rewrite run_one in H1.
    destruct (for_each_ok planets planets Hnd hk h' H1) as [_ Hin].
    exists (path ++ [position (h' b)]). split; [| split].
    + rewrite (Hin b Hb), Ho. now rewrite app_assoc.
    + rewrite length_app. cbn. lia.
    + intros i Hi. destruct (Nat.eq_dec i k) as [-> | Hne].
      * exists h'. split.
        -- replace (S k) with (k + 1)%nat by lia. rewrite run_add.
           unfold bind. rewrite Hk. now rewrite run_one.
        -- rewrite nth_error_app2 by lia. rewrite Hlen, Nat.sub_diag.
           reflexivity.
      * destruct (Hnth i ltac:(lia)) as [hi [Hi1 Hi2]].
        exists hi. split; [exact Hi1 |].
        rewrite nth_error_app1 by lia. exact Hi2.
Qed.

Lemma init_run (self : loc) (x0 y0 : num) (r : Z) (c : Z * Z * Z) (m : num)
    (h : heap num) :
  Planet.__init__ self x0 y0 r c m h =
    (Ok tt,
     upd self
       (Obj.mk x0 y0 r c m (of_int 0, of_int 0) [] false (of_int 0)) h).
Proof. reflexivity. Qed.

(** ** The order of the updates within a frame *)

Lemma for_each_step (before after planets : list loc) (b : loc)
    (h h' : heap num) :
  NoDup (before ++ b :: after) ->
  for_each (before ++ b :: after) planets h = (Ok tt, h') ->
  exists h_mid h_b,
    for_each before planets h = (Ok tt, h_mid) /\
    Planet.update_position b planets h_mid = (Ok tt, h_b) /\
    h' b = h_b b /\
    (forall l, In l before -> h_mid l = h' l) /\
    (forall l, ~ In l before -> h_mid l = h l).
Proof.
  intros Hnd Hrun.
  apply for_each_app in Hrun. destruct Hrun as [h_mid [Hbefore Hrest]].
  cbn [for_each] in Hrest. unfold bind in Hrest.
  destruct (Planet.update_position b planets h_mid) as [[[] | e] h_b] eqn:Hu;
    [| discriminate].
  pose proof (NoDup_remove_2 _ _ _ Hnd) as Hb.
  pose proof (NoDup_remove_1 _ _ _ Hnd) as Hnd'.
  destruct (for_each_ok before planets (NoDup_app_remove_r _ _ Hnd')
              h h_mid Hbefore) as [Hout _].
  destruct (for_each_ok after planets (NoDup_app_remove_l _ _ Hnd')
              h_b h' Hrest) as [Hout' _].
  destruct (update_position_ok b planets h_mid h_b Hu) as [Hfr _].
  assert (Hb2 : ~ In b after) by (intros Hc; apply Hb, in_or_app; now right).
  exists h_mid, h_b. split; [exact Hbefore |]. split; [exact Hu |].
  split; [now apply Hout' |]. split; [| exact Hout].
  intros l Hl.
  assert (Hl1 : ~ In l after) by now apply (NoDup_app_disjoint before after).
  assert (Hl2 : l <> b).
  { intros ->. apply Hb, in_or_app. now left. }
  now rewrite (Hout' l Hl1), (Hfr l Hl2).
Qed.

(** In a successful frame over distinct bodies, the body [b] is advanced
    by the forces read in the store [h_mid] that the bodies before it
    have left: those are in their final state of the frame, [b] and the
    bodies after it are as the frame found them. *)
Lemma for_each_sequential (before after planets : list loc) (b : loc)
    (h h' : heap num) :
  NoDup (before ++ b :: after) ->
  for_each (before ++ b :: after) planets h = (Ok tt, h') ->
  exists h_mid total d,
    for_each before planets h = (Ok tt, h_mid) /\
    (forall l, In l before -> h_mid l = h' l) /\
    (forall l, ~ In l before -> h_mid l = h l) /\
    total_force b planets h_mid = Ok total /\
    advance total (Obj.set_distance_to_sun d (h b)) = Ok (h' b).
Proof.
  intros Hnd Hrun.
  destruct (for_each_step before after planets b h h' Hnd Hrun)
    as (h_mid & h_b & Hmid & Hu & Hb & Hin & Hout).
  destruct (update_position_ok b planets h_mid h_b Hu)
    as [_ (total & d & Ht & Ha & _)].
  assert (Hb1 : ~ In b before).
  { intros Hc. apply (NoDup_remove_2 _ _ _ Hnd), in_or_app. now left. }
  exists h_mid, total, d. rewrite Hb, <- (Hout b Hb1).
  repeat split; assumption.
Qed.

(** ** A body alone *)



(** ** Failures of [update_position] *)

(** When [+] and [*] cannot raise, an [integrate] that raises has
    raised in one of the divisions, before any assignment. *)
Lemma integrate_atomic (self : loc) (total : num * num) (h h' : heap num)
    (e : exn) :
  total2 py_add -> total2 py_mul ->
  Planet.integrate self total h = (Raise e, h') -> h' = h.
Proof.
  intros Hadd Hmul.
  unfold Planet.integrate, bind, lift, getattr, modify.
  destruct (truediv (fst total) _) as [ax |]; [| now intros [= _ <-]].
  destruct (truediv (snd total) _) as [ay |]; [| now intros [= _ <-]].
  destruct (Hmul ax (of_int Planet.TIMESTEP)) as [d0 ->].
  destruct (Hadd (fst (Obj.velocity (h self))) d0) as [v0 ->].
  rewrite !upd_same. obj_simpl.
  destruct (Hmul ay (of_int Planet.TIMESTEP)) as [d1 ->].
  destruct (Hadd (snd (Obj.velocity (h self))) d1) as [v1 ->].
  rewrite !upd_same. obj_simpl.
  destruct (Hmul v0 (of_int Planet.TIMESTEP)) as [s0 ->].
  destruct (Hadd (Obj.x (h self)) s0) as [x' ->].
  rewrite !upd_same. obj_simpl.
  destruct (Hmul v1 (of_int Planet.TIMESTEP)) as [s1 ->].
  destruct (Hadd (Obj.y (h self)) s1) as [y' ->].
  discriminate.
Qed.

Lemma update_position_raise (self : loc) (planets : list loc)
    (h h' : heap num) (e : exn) :
  Planet.update_position self planets h = (Raise e, h') ->
  let h1 := snd (Planet.sum_forces self planets (of_int 0) (of_int 0) h) in
  dts_only self h h1 /\
  (h' = h1 \/
   exists total,
     Planet.integrate self total h1 = (Raise e, h') /\
     exists v x1,
       h' = upd self (Obj.set_x x1 (Obj.set_velocity v (h1 self))) h1).
Proof.
  intros Hu h1. split; [apply sum_forces_frame |].
  unfold Planet.update_position, bind in Hu. subst h1.
  destruct (Planet.sum_forces self planets (of_int 0) (of_int 0) h)
    as [[total | e0] h1]; cbn [snd].
  - right. exists total. split; [exact Hu |].
    pose proof (integrate_run self total h1) as Hi.
    destruct (advance total (h1 self)); [rewrite Hi in Hu; discriminate |].
    destruct Hi as (v & x1 & Hi). rewrite Hi in Hu.
    injection Hu as _ <-. eauto.
  - left. now injection Hu as _ <-.
Qed.

(** ** The distance shown for a planet *)

Lemma gravity_separation (s o : Obj.t num) (f : num * num) :
  gravity s o = Ok f -> exists d, separation s o = Ok d.
Proof.
  unfold gravity, separation, and_then.
  destruct (py_sub (Obj.x o) (Obj.x s)); [| discriminate].
  destruct (py_sub (Obj.y o) (Obj.y s)); [| discriminate].
  destruct (hypot _ _); [eauto | discriminate].
Qed.

(** While the only flagged body [s] has not been met, the loop leaves
    [distance_to_sun]; once it has, the field holds the distance to
    [s], computed in the store of the call. *)
Lemma sum_forces_distance (self s : loc) (todo : list loc) :
  s <> self ->
  forall fx fy h total,
    Obj.sun (h s) = true ->
    (forall q, In q todo -> Obj.sun (h q) = true -> q = s) ->
    fst (Planet.sum_forces self todo fx fy h) = Ok total ->
    if in_dec Nat.eq_dec s todo
    then separation (h self) (h s) =
           Ok (Obj.distance_to_sun
                 (snd (Planet.sum_forces self todo fx fy h) self))
    else Obj.distance_to_sun
           (snd (Planet.sum_forces self todo fx fy h) self) =
         Obj.distance_to_sun (h self).
Proof.
  intros Hne. induction todo as [| p rest IH]; intros fx fy h total Hs Hu E;
    cbn [Planet.sum_forces] in *.
  - reflexivity.
  - assert (Hu' : forall q, In q rest -> Obj.sun (h q) = true -> q = s)
      by (intros q Hq; apply Hu; now right).
    destruct (Nat.eqb self p) eqn:Ep.
    + apply Nat.eqb_eq in Ep. subst p. specialize (IH _ _ _ _ Hs Hu' E).
      destruct (in_dec Nat.eq_dec s rest) as [Hin | Hout];
        destruct (in_dec Nat.eq_dec s (self :: rest)) as [Hin' | Hout'];
        try exact IH.
      * exfalso. apply Hout'. now right.
      * destruct Hin' as [Es | Hin']; [congruence | contradiction].
    + unfold bind in *. rewrite attraction_run in *.
      destruct (gravity (h self) (h p)) as [f |] eqn:Eg; [| discriminate].
      unfold lift in *.
      destruct (py_add fx (fst f)) as [tx |]; [| discriminate].
      destruct (py_add fy (snd f)) as [ty |]; [| discriminate].
      pose proof (dts_any_seen self p h) as Hany.
      assert (Hs1 : Obj.sun (seen self p h s) = true).
      { destruct (Hany s) as [d ->]. exact Hs. }
      assert (Hu1 : forall q, In q rest ->
                      Obj.sun (seen self p h q) = true -> q = s).
      { intros q Hq Hq'. apply (Hu' q Hq).
        destruct (Hany q) as [d Hd]. now rewrite Hd in Hq'. }
      specialize (IH _ _ _ _ Hs1 Hu1 E).
      rewrite (dts_any_separation h _ self s Hany) in IH.
      destruct (in_dec Nat.eq_dec s rest) as [Hin | Hout];
        destruct (in_dec Nat.eq_dec s (p :: rest)) as [Hin' | Hout'];
        try exact IH.
      * exfalso. apply Hout'. now right.
      * rewrite IH. destruct Hin' as [-> | Hin']; [| contradiction].
        destruct (gravity_separation _ _ _ Eg) as [d Hd].
        unfold seen. rewrite Hd, Hs, upd_same. reflexivity.
      * rewrite IH. unfold seen.
        destruct (separation (h self) (h p)); [| reflexivity].
        destruct (Obj.sun (h p)) eqn:Esun; [| reflexivity].
        exfalso. apply Hout'. left. apply Hu; [now left | exact Esun].
Qed.

Lemma update_position_distance (self s : loc) (planets : list loc)
    (h h' : heap num) :
  In s planets -> s <> self -> Obj.sun (h s) = true ->
  (forall q, In q planets -> Obj.sun (h q) = true -> q = s) ->
  Planet.update_position self planets h = (Ok tt, h') ->
  separation (h self) (h s) = Ok (Obj.distance_to_sun (h' self)).
Proof.
  intros Hin Hne Hs Hu Hrun.
  destruct (update_position_ok self planets h h' Hrun)
    as [_ (total & d & Ht & Ha & _ & Hd)].
  unfold total_force in Ht. rewrite <- sum_forces_run in Ht.
  pose proof (sum_forces_distance self s planets Hne _ _ h total Hs Hu Ht)
    as Hdist.
  destruct (in_dec Nat.eq_dec s planets); [| contradiction].
  rewrite <- Hd in Hdist. obj_simpl.
  apply advance_moved in Ha. destruct Ha as [(_ & _ & _ & _ & Hdts) _].
  rewrite Hdts. exact Hdist.
Qed.

Lemma for_each_sun (todo planets : list loc) (h : heap num) (l : loc) :
  incl todo planets ->
  Obj.sun (snd (for_each todo planets h) l) = Obj.sun (h l).
Proof.
  intros Hin. revert l.
  apply (for_each_inv (fun h' => forall l, Obj.sun (h' l) = Obj.sun (h l))
           planets).
  - intros self other d h1 _ _ _ _ _ H1 l. unfold upd.
    destruct (Nat.eqb l self) eqn:E; [| apply H1].
    apply Nat.eqb_eq in E. subst l. obj_simpl. apply H1.
  - intros self p' h1 _ H1 (_ & _ & _ & Hsun & _) l. unfold upd.
    destruct (Nat.eqb l self) eqn:E; [| apply H1].
    apply Nat.eqb_eq in E. subst l. rewrite Hsun. apply H1.
  - exact Hin.
  - reflexivity.
Qed.

(** ** A body listed more than once *)

Lemma for_each_count (todo planets : list loc) :
  forall h h',
    for_each todo planets h = (Ok tt, h') ->
    forall b,
      length (Obj.orbit (h' b)) =
      (length (Obj.orbit (h b)) + count_occ Nat.eq_dec todo b)%nat.
Proof.
  induction todo as [| p rest IH]; intros h h' E b; cbn [for_each] in E.
  - injection E as <-. cbn. lia.
  - unfold bind in E.
    destruct (Planet.update_position p planets h) as [[[] | e] h1] eqn:Hu;
      [| discriminate].
    rewrite (IH h1 h' E b). cbn [count_occ].
    destruct (Nat.eq_dec p b) as [-> | Hne].
    + rewrite (update_position_orbit b planets h h1 Hu), length_app.
      cbn. lia.
    + destruct (update_position_ok p planets h h1 Hu) as [Hfr _].
      rewrite Hfr by congruence. lia.
Qed.

(** ** Drawing *)

Lemma map_result_length {A B : Type} (f : A -> result B) (l : list A)
    (l' : list B) :
  map_result f l = Ok l' -> length l' = length l.
Proof.
  revert l'. induction l as [| a l IH]; intros l' E; cbn in E.
  - now injection E as <-.
  - unfold and_then in E. destruct (f a); [| discriminate].
    destruct (map_result f l) as [more |]; [| discriminate].
    injection E as <-. cbn. f_equal. now apply IH.
Qed.

Lemma map_result_In {A B : Type} (f : A -> result B) (l : list A)
    (l' : list B) (a : A) :
  map_result f l = Ok l' -> In a l -> exists b, f a = Ok b.
Proof.
  revert l'. induction l as [| a0 l IH]; intros l' E Ha; [destruct Ha |].
  cbn in E. unfold and_then in E.
  destruct (f a0) as [b0 |] eqn:E0; [| discriminate].
  destruct (map_result f l) as [more |]; [| discriminate].
  destruct Ha as [<- | Ha]; [eauto | exact (IH more eq_refl Ha)].
Qed.

(** The circle and the distance never add a polyline. *)
Lemma draw_circle_lines (F : Pygame num) (p : Obj.t num) (xy : num * num)
    (c : Z * Z * Z) (cl : bool) (pts : list (num * num)) (w : Z) :
  ~ In (Lines c cl pts w) (fst (Planet.draw_circle F p xy)).
Proof.
  unfold Planet.draw_circle, then_draw, eval, emit.
  destruct (py_int (fst xy)); cbn; [| tauto].
  destruct (py_int (snd xy)); cbn; [| tauto].
  intros [E | []]. discriminate.
Qed.

Lemma draw_distance_lines (F : Pygame num) (p : Obj.t num) (xy : num * num)
    (c : Z * Z * Z) (cl : bool) (pts : list (num * num)) (w : Z) :
  ~ In (Lines c cl pts w) (fst (Planet.draw_distance F p xy)).
Proof.
  unfold Planet.draw_distance, then_draw, eval, emit.
  destruct (negb (Obj.sun p)); cbn; [| tauto].
  destruct (truediv (Obj.distance_to_sun p) _); cbn; [| tauto].
  destruct (render_km F _); cbn; [| tauto].
  destruct (truediv (of_int (get_width F _)) _); cbn; [| tauto].
  destruct (py_sub (fst xy) _); cbn; [| tauto].
  destruct (truediv (of_int (get_height F _)) _); cbn; [| tauto].
  destruct (py_sub (snd xy) _); cbn; [| tauto].
  intros [E | []]. discriminate.
Qed.

Lemma draw_trail_lines (F : Pygame num) (p : Obj.t num)
    (c : Z * Z * Z) (cl : bool) (pts : list (num * num)) (w : Z) :
  In (Lines c cl pts w) (fst (Planet.draw_trail F p)) <->
  (2 < length (Obj.orbit p))%nat /\
  c = Obj.color p /\ cl = false /\ w = 2%Z /\
  map_result Planet.to_screen (Obj.orbit p) = Ok pts.
Proof.
  unfold Planet.draw_trail, then_draw, eval, emit.
  destruct (Nat.ltb 2 (length (Obj.orbit p))) eqn:E.
  - apply Nat.ltb_lt in E.
    destruct (map_result Planet.to_screen (Obj.orbit p)) as [pts0 |];
      cbn; split.
    + intros [Hc | []]. injection Hc as <- <- <- <-. repeat split. exact E.
    + intros (_ & -> & -> & -> & Hp). injection Hp as <-. now left.
    + tauto.
    + intros (_ & _ & _ & _ & Hp). discriminate.
  - apply Nat.ltb_ge in E. cbn. split; [tauto |].
    intros (Hlen & _). lia.
Qed.

(** The polyline that [draw] issues, if any. *)
Lemma draw_lines (F : Pygame num) (p : Obj.t num)
    (c : Z * Z * Z) (cl : bool) (pts : list (num * num)) (w : Z) :
  In (Lines c cl pts w) (fst (Planet.draw F p)) <->
  (exists xy, Planet.to_screen (Obj.x p, Obj.y p) = Ok xy) /\
  (2 < length (Obj.orbit p))%nat /\
  c = Obj.color p /\ cl = false /\ w = 2%Z /\
  map_result Planet.to_screen (Obj.orbit p) = Ok pts.
Proof.
  unfold Planet.draw. unfold then_draw at 1, eval at 1.
  destruct (Planet.to_screen (Obj.x p, Obj.y p)) as [xy |].
  2:{ cbn. split; [tauto |]. intros [[xy E] _]. discriminate. }
  cbn [fst snd app].
  rewrite <- (draw_trail_lines F).
  assert (Hx : exists xy0, Ok xy = Ok xy0) by eauto.
  unfold then_draw at 1.
  destruct (Planet.draw_trail F p) as [calls [[] | e]]; cbn [fst snd].
  - rewrite in_app_iff. unfold then_draw.
    pose proof (draw_circle_lines F p xy c cl pts w) as Hc.
    pose proof (draw_distance_lines F p xy c cl pts w) as Hd.
    destruct (Planet.draw_circle F p xy) as [calls1 [[] | e1]];
      cbn [fst snd] in *; rewrite ?in_app_iff; tauto.
  - tauto.
Qed.


End Generic.

(** ** Facts of binary64 arithmetic *)

Section Binary64.

Local Open Scope float_scope.

Lemma binary_round_aux_opp (s : bool) (m e : Z) (l : location) :
  binary_round_aux prec emax (negb s) m e l =
  SFopp (binary_round_aux prec emax s m e l).
Proof.
  unfold binary_round_aux.
  destruct (shr_fexp prec emax m e l) as [mrs' e'].
  destruct (shr_fexp prec emax _ e' loc_Exact) as [mrs'' e''].
  destruct (shr_m mrs''); [reflexivity | | reflexivity].
  now destruct (Z.leb e'' (emax - prec)).
Qed.

Lemma binary_round_opp (m : positive) (e : Z) :
  binary_round prec emax true m e = SFopp (binary_round prec emax false m e).
Proof.
  unfold binary_round.
  destruct (shl_align m e _) as [mz ez].
  apply (binary_round_aux_opp false).
Qed.

Lemma binary_normalize_opp (m e : Z) :
  binary_normalize prec emax (- m) e false =
    binary_normalize prec emax m e false \/
  binary_normalize prec emax (- m) e false =
    SFopp (binary_normalize prec emax m e false).
Proof.
  destruct m as [| p | p]; cbn [Z.opp binary_normalize].
  - now left.
  - right. apply binary_round_opp.
  - right. rewrite binary_round_opp.
    destruct (binary_round _ _ _ _ _) as [[] | [] | | [] ? ?]; reflexivity.
Qed.

(** [b - a] is [a - b] or its opposite. *)
Lemma SFsub_swap (x y : spec_float) :
  SF64sub y x = SF64sub x y \/ SF64sub y x = SFopp (SF64sub x y).
Proof.
  unfold SF64sub.
  destruct x as [sx | sx | | sx mx ex], y as [sy | sy | | sy my ey];
    try (destruct sx, sy; cbn; tauto);
    try (destruct sx; cbn; tauto);
    try (destruct sy; cbn; tauto);
    try (cbn; tauto).
  unfold SFsub. rewrite (Z.min_comm ey ex).
  set (a := cond_Zopp sx _). set (b := cond_Zopp sy _).
  replace (b - a)%Z with (- (a - b))%Z by lia.
  apply binary_normalize_opp.
Qed.

Lemma sub_swap (a b : float) : b - a = a - b \/ b - a = - (a - b).
Proof.
  destruct (SFsub_swap (Prim2SF a) (Prim2SF b)) as [E | E]; [left | right];
    apply Prim2SF_inj; rewrite ?opp_spec, !sub_spec; exact E.
Qed.

Lemma SFeqb_opp (x : spec_float) : SFeqb (SFopp x) (SFopp x) = SFeqb x x.
Proof.
  destruct x as [[] | [] | | [] m e]; try reflexivity;
    unfold SFeqb, SFcompare, SFopp, negb;
    rewrite Z.compare_refl, Pos.compare_cont_refl; reflexivity.
Qed.

Lemma SFabs_opp (x : spec_float) : SFabs (SFopp x) = SFabs x.
Proof. now destruct x. Qed.

Lemma abs_opp (a : float) : abs (- a) = abs a.
Proof.
  apply Prim2SF_inj. now rewrite !abs_spec, opp_spec, SFabs_opp.
Qed.

Lemma is_nan_opp (a : float) : is_nan (- a) = is_nan a.
Proof.
  unfold is_nan. now rewrite !eqb_spec, opp_spec, SFeqb_opp.
Qed.

Lemma eqb_zero_opp (a : float) : (- a =? 0) = (a =? 0).
Proof.
  rewrite !eqb_spec, opp_spec.
  now destruct (Prim2SF a) as [[] | [] | | [] m e].
Qed.

(** The opposite of a NaN is that NaN. *)
Lemma opp_nan (a : float) : is_nan a = true -> - a = a.
Proof.
  unfold is_nan. rewrite eqb_spec. intros E.
  apply Prim2SF_inj. rewrite opp_spec.
  destruct (Prim2SF a) as [[] | [] | | s m e]; try reflexivity;
    try discriminate E.
  exfalso. unfold SFeqb, SFcompare in E.
  rewrite Z.compare_refl, Pos.compare_cont_refl in E.
  destruct s; discriminate E.
Qed.

(** A finite float minus itself is [+0]. *)
Lemma sub_diag_finite (a : float) : is_finite a = true -> a - a = 0.
Proof.
  intros Hf. apply Prim2SF_inj. rewrite sub_spec.
  unfold is_finite, is_nan, is_infinity in Hf.
  rewrite !eqb_spec, abs_spec in Hf.
  destruct (Prim2SF a) as [[] | [] | | s m e]; try reflexivity;
    try discriminate Hf.
  unfold SF64sub, SFsub. rewrite Z.sub_diag. reflexivity.
Qed.






Lemma math_result_raise (c : bool) (args : list float) (r : float) :
  math_result c args r <> Raise ZeroDivisionError.
Proof.
  unfold math_result.
  destruct (_ && _); [discriminate |].
  destruct (_ && _); [destruct c; discriminate | discriminate].
Qed.

Section WithLibm.

Context {L : Libm}.

Lemma pow_2_raise (a : float) : pow_2 a <> Raise ZeroDivisionError.
Proof.
  cbn. unfold float_pow_2.
  destruct (is_nan a); [discriminate |].
  destruct (is_infinity a); [discriminate |].
  destruct (a =? 0); [discriminate |].
  destruct (abs a =? 1); [discriminate |].
  cbv zeta. destruct (is_infinity _); discriminate.
Qed.

(** The square of the opposite is the square. *)
Lemma pow_2_opp (a : float) : pow_2 (- a) = pow_2 a.
Proof.
  cbn. unfold float_pow_2, is_infinity.
  rewrite abs_opp, is_nan_opp, eqb_zero_opp.
  destruct (is_nan a) eqn:E; [| reflexivity].
  now rewrite (opp_nan a E).
Qed.

Lemma pow_2_swap (a b : float) : pow_2 (b - a) = pow_2 (a - b).
Proof.
  destruct (sub_swap a b) as [-> | ->]; [reflexivity | apply pow_2_opp].
Qed.

Lemma separation_sym (s o : Obj.t float) : separation o s = separation s o.
Proof.
  unfold separation, hypot. cbn [py_sub binary64 and_then].
  now rewrite (pow_2_swap (Obj.x o) (Obj.x s)),
              (pow_2_swap (Obj.y o) (Obj.y s)).
Qed.

Lemma separation_raise (s o : Obj.t float) :
  separation s o <> Raise ZeroDivisionError.
Proof.
  unfold separation, hypot. cbn [py_sub py_add binary64 and_then].
  destruct (pow_2 (Obj.x o - Obj.x s)) eqn:E1; cbn [and_then];
    [| intros Hc; rewrite Hc in E1; exact (pow_2_raise _ E1)].
  destruct (pow_2 (Obj.y o - Obj.y s)) eqn:E2; cbn [and_then];
    [| intros Hc; rewrite Hc in E2; exact (pow_2_raise _ E2)].
  apply math_result_raise.
Qed.

(** On floats [-] cannot raise: the force is the distance followed by
    [pull]. *)
Lemma gravity_binary64 (s o : Obj.t float) :
  gravity s o =
    (d <~ separation s o ;;
     pull (Obj.mass s) (Obj.mass o)
       (Obj.x o - Obj.x s) (Obj.y o - Obj.y s) d).
Proof. reflexivity. Qed.

Lemma pull_zero_division (ms mo dx dy d : float) :
  pull ms mo dx dy d = Raise ZeroDivisionError <->
  exists d2, pow_2 d = Ok d2 /\ (d2 =? 0) = true.
Proof.
  unfold pull. cbn [py_mul truediv binary64 and_then].
  destruct (pow_2 d) as [d2 | e] eqn:E; cbn [and_then].
  - destruct (d2 =? 0) eqn:E0; cbn [and_then].
    + split; [eauto | reflexivity].
    + split.
      * intros Hr. exfalso.
        destruct (math_atan2 dy dx) as [angle |] eqn:Ea; cbn [and_then] in Hr;
          [| injection Hr as ->; exact (math_result_raise _ _ _ Ea)].
        destruct (math_cos angle) as [c |] eqn:Ec; cbn [and_then] in Hr;
          [| injection Hr as ->; exact (math_result_raise _ _ _ Ec)].
        destruct (math_sin angle) as [sn |] eqn:Es; cbn [and_then] in Hr;
          [discriminate |].
        injection Hr as ->. exact (math_result_raise _ _ _ Es).
      * intros (d2' & Ed & Hz). injection Ed as <-. congruence.
  - split.
    + intros Hr. injection Hr as ->. destruct (pow_2_raise _ E).
    + intros (d2 & Ed & _). discriminate.
Qed.

Lemma gravity_zero_division (s o : Obj.t float) :
  gravity s o = Raise ZeroDivisionError <->
  exists d d2,
    separation s o = Ok d /\ pow_2 d = Ok d2 /\ (d2 =? 0) = true.
Proof.
  rewrite gravity_binary64.
  destruct (separation s o) as [d | e] eqn:E; cbn [and_then].
  - rewrite pull_zero_division. split.
    + intros (d2 & H1 & H2). eauto.
    + intros (d' & d2 & Hd & H1 & H2). injection Hd as <-. eauto.
  - split.
    + intros Hr. injection Hr as ->. destruct (separation_raise _ _ E).
    + intros (d & d2 & Hd & _). discriminate.
Qed.

Lemma separation_same_place (s o : Obj.t float) :
  position o = position s ->
  is_finite (Obj.x s) = true -> is_finite (Obj.y s) = true ->
  separation s o = Ok 0.
Proof.
  unfold position. intros E Hx Hy.
  assert (Ex : Obj.x o = Obj.x s) by (apply (f_equal fst) in E; exact E).
  assert (Ey : Obj.y o = Obj.y s) by (apply (f_equal snd) in E; exact E).
  unfold separation. cbn [py_sub binary64 and_then].
  rewrite Ex, Ey, (sub_diag_finite _ Hx), (sub_diag_finite _ Hy).
  reflexivity.
Qed.


End WithLibm.

End Binary64.

(** ** Facts of exact arithmetic *)

Ltac exact_simpl :=
  unfold add_force;
  cbn [and_then add_up py_add py_sub py_mul exact of_int fst snd
       pair_store star_store sun_store clash_store drift_store drifting
       at_rest
       Obj.set_x Obj.set_y Obj.set_velocity Obj.set_velocity_0
       Obj.set_velocity_1 Obj.set_orbit Obj.set_distance_to_sun Obj.set_sun
       Obj.x Obj.y Obj.radius Obj.color Obj.mass Obj.velocity Obj.orbit
       Obj.sun Obj.distance_to_sun] in *.

Section Exact.

Local Open Scope R_scope.

Lemma sum_sq_nonneg (a b : R) : 0 <= a ^ 2 + b ^ 2.
Proof. nra. Qed.

Lemma hypot_sqr (a b : R) :
  R_sqrt.sqrt (a ^ 2 + b ^ 2) ^ 2 = a ^ 2 + b ^ 2.
Proof. rewrite <- Rsqr_pow2. apply Rsqr_sqrt, sum_sq_nonneg. Qed.

Lemma hypot_scale (a b : R) :
  a <> 0 ->
  R_sqrt.sqrt (a ^ 2 + b ^ 2) = Rabs a * R_sqrt.sqrt (1 + (b / a)²).
Proof.
  intros Ha.
  replace (a ^ 2 + b ^ 2) with (a² * (1 + (b / a)²))
    by (unfold Rsqr; field; exact Ha).
  rewrite sqrt_mult_alt by apply Rle_0_sqr.
  now rewrite sqrt_Rsqr_abs.
Qed.

Lemma unit_root_pos (t : R) : 0 < R_sqrt.sqrt (1 + t²).
Proof. apply sqrt_lt_R0. pose proof (Rle_0_sqr t). lra. Qed.

(** Away from the origin, the angle returned by [atan2] is the polar
    angle of the point. *)
Lemma cos_atan2 (y x : R) :
  x <> 0 \/ y <> 0 -> cos (atan2 y x) = x / R_sqrt.sqrt (x ^ 2 + y ^ 2).
Proof.
  intros Hne. unfold atan2.
  pose proof (unit_root_pos (y / x)) as Hr.
  destruct (Rlt_dec 0 x) as [Hx | Hx].
  - rewrite cos_atan, hypot_scale, Rabs_right by lra.
    field. lra.
  - destruct (Rlt_dec x 0) as [Hx' | Hx'].
    + assert (Hc : cos (atan (y / x) + PI) = x / R_sqrt.sqrt (x ^ 2 + y ^ 2)).
      { rewrite neg_cos, cos_atan, hypot_scale, Rabs_left by lra.
        field. lra. }
      destruct (Rle_dec 0 y); [exact Hc |].
      rewrite <- Hc.
      replace (atan (y / x) - PI) with (atan (y / x) + PI - 2 * PI) by ring.
      unfold Rminus.
      rewrite cos_plus, cos_neg, sin_neg, cos_2PI, sin_2PI. ring.
    + assert (x = 0) by lra. subst x.
      unfold Rdiv. rewrite Rmult_0_l.
      destruct (Rlt_dec 0 y); [apply cos_PI2 |].
      destruct (Rlt_dec y 0); [rewrite cos_neg; apply cos_PI2 | lra].
Qed.

Lemma sin_atan2 (y x : R) :
  x <> 0 \/ y <> 0 -> sin (atan2 y x) = y / R_sqrt.sqrt (x ^ 2 + y ^ 2).
Proof.
  intros Hne. unfold atan2.
  pose proof (unit_root_pos (y / x)) as Hr.
  destruct (Rlt_dec 0 x) as [Hx | Hx].
  - rewrite sin_atan, hypot_scale, Rabs_right by lra.
    field. lra.
  - destruct (Rlt_dec x 0) as [Hx' | Hx'].
    + assert (Hc : sin (atan (y / x) + PI) = y / R_sqrt.sqrt (x ^ 2 + y ^ 2)).
      { rewrite neg_sin, sin_atan, hypot_scale, Rabs_left by lra.
        field. lra. }
      destruct (Rle_dec 0 y); [exact Hc |].
      rewrite <- Hc.
      replace (atan (y / x) - PI) with (atan (y / x) + PI - 2 * PI) by ring.
      unfold Rminus.
      rewrite sin_plus, cos_neg, sin_neg, cos_2PI, sin_2PI. ring.
    + assert (x = 0) by lra. subst x.
      replace (0 ^ 2 + y ^ 2) with (y²) by (unfold Rsqr; ring).
      rewrite sqrt_Rsqr_abs.
      destruct (Rlt_dec 0 y).
      * rewrite sin_PI2, Rabs_right by lra. field. lra.
      * destruct (Rlt_dec y 0); [| lra].
        rewrite sin_neg, sin_PI2, Rabs_left by lra. field. lra.
Qed.

(** The constants of the class as real numbers. *)
Lemma G_value :
  of_float Planet.G = 5163989502626508 / 77371252455336267181195264.
Proof.
  unfold of_float, exact, float_value.
  replace (Prim2SF Planet.G)
    with (S754_finite false 5163989502626508 (-86))
    by (vm_compute; reflexivity).
  change (0 <=? -86)%Z with false. cbv iota.
  change (2 ^ (- -86))%Z with 77371252455336267181195264%Z.
  reflexivity.
Qed.

Lemma TIMESTEP_value : of_int Planet.TIMESTEP = 86400.
Proof. reflexivity. Qed.

(** The distance and the force in closed form. *)
Lemma exact_separation (s o : Obj.t R) : separation s o = Ok (distance s o).
Proof.
  unfold separation, hypot, distance.
  cbn [py_sub pow_2 py_add math_sqrt exact and_then].
  destruct (Rlt_dec _ 0) as [Hneg | _]; [| reflexivity].
  pose proof (sum_sq_nonneg (Obj.x o - Obj.x s) (Obj.y o - Obj.y s)). lra.
Qed.

Lemma exact_gravity (s o : Obj.t R) :
  distance s o <> 0 ->
  gravity s o =
    Ok (of_float Planet.G * Obj.mass s * Obj.mass o / distance s o ^ 2 *
          cos (atan2 (Obj.y o - Obj.y s) (Obj.x o - Obj.x s)),
        of_float Planet.G * Obj.mass s * Obj.mass o / distance s o ^ 2 *
          sin (atan2 (Obj.y o - Obj.y s) (Obj.x o - Obj.x s))).
Proof.
  intros Hd. unfold gravity, hypot, pull.
  cbn [py_sub pow_2 py_add py_mul math_sqrt math_atan2 math_cos math_sin
       truediv exact and_then].
  fold (distance s o).
  destruct (Rlt_dec _ 0) as [Hneg | _].
  { pose proof (sum_sq_nonneg (Obj.x o - Obj.x s) (Obj.y o - Obj.y s)). lra. }
  cbn [and_then]. fold (distance s o).
  destruct (Req_dec_T (distance s o ^ 2) 0) as [E | _]; [| reflexivity].
  exfalso. apply Hd. nra.
Qed.

Lemma distance_axis (s o : Obj.t R) :
  Obj.y o = Obj.y s -> distance s o = Rabs (Obj.x o - Obj.x s).
Proof.
  intros Hy. unfold distance. rewrite Hy, <- sqrt_Rsqr_abs.
  f_equal. unfold Rsqr. ring.
Qed.

(** Two bodies on a horizontal line. *)
Lemma exact_gravity_right (s o : Obj.t R) :
  Obj.y o = Obj.y s -> Obj.x s < Obj.x o ->
  gravity s o =
    Ok (of_float Planet.G * Obj.mass s * Obj.mass o /
          (Obj.x o - Obj.x s) ^ 2, 0).
Proof.
  intros Hy Hx.
  assert (Hd : distance s o = Obj.x o - Obj.x s)
    by (rewrite distance_axis, Rabs_right by (exact Hy || lra); reflexivity).
  rewrite exact_gravity by lra.
  rewrite cos_atan2, sin_atan2 by (left; lra).
  fold (distance s o). rewrite Hd, Hy.
  f_equal. f_equal; field; lra.
Qed.

Lemma exact_gravity_left (s o : Obj.t R) :
  Obj.y o = Obj.y s -> Obj.x o < Obj.x s ->
  gravity s o =
    Ok (- (of_float Planet.G * Obj.mass s * Obj.mass o /
             (Obj.x s - Obj.x o) ^ 2), 0).
Proof.
  intros Hy Hx.
  assert (Hd : distance s o = Obj.x s - Obj.x o)
    by (rewrite distance_axis, Rabs_left by (exact Hy || lra); ring).
  rewrite exact_gravity by lra.
  rewrite cos_atan2, sin_atan2 by (left; lra).
  fold (distance s o). rewrite Hd, Hy.
  f_equal. f_equal; field; lra.
Qed.

Lemma distance_sym (s o : Obj.t R) : distance o s = distance s o.
Proof. unfold distance. f_equal. ring. Qed.

Lemma distance_offsets (s o : Obj.t R) :
  distance s o <> 0 ->
  Obj.x o - Obj.x s <> 0 \/ Obj.y o - Obj.y s <> 0.
Proof.
  intros Hd.
  destruct (Req_dec_T (Obj.x o - Obj.x s) 0) as [Ex | Ex]; [| now left].
  destruct (Req_dec_T (Obj.y o - Obj.y s) 0) as [Ey | Ey]; [| now right].
  exfalso. apply Hd. unfold distance. rewrite Ex, Ey.
  replace (0 ^ 2 + 0 ^ 2) with 0 by ring. apply sqrt_0.
Qed.

(** Without rounding the two forces between two bodies a positive
    distance apart are opposite. *)
Lemma exact_third_law (s o : Obj.t R) :
  distance s o <> 0 ->
  exists fx fy : R,
    gravity s o = Ok (fx, fy) /\ gravity o s = Ok (- fx, - fy).
Proof.
  intros Hd.
  assert (Hd' : distance o s <> 0) by now rewrite distance_sym.
  pose proof (distance_offsets s o Hd) as Hne.
  pose proof (distance_offsets o s Hd') as Hne'.
  rewrite (exact_gravity s o Hd), (exact_gravity o s Hd').
  rewrite !cos_atan2, !sin_atan2 by assumption.
  fold (distance s o). fold (distance o s). rewrite (distance_sym s o).
  eexists _, _. split; [reflexivity |].
  f_equal. f_equal; field; exact Hd.
Qed.

Lemma exact_advance (total : R * R) (p : Obj.t R) :
  Obj.mass p <> 0 ->
  advance total p =
    Ok (let vx := fst (Obj.velocity p) +
                  fst total / Obj.mass p * of_int Planet.TIMESTEP in
        let vy := snd (Obj.velocity p) +
                  snd total / Obj.mass p * of_int Planet.TIMESTEP in
        let x' := Obj.x p + vx * of_int Planet.TIMESTEP in
        let y' := Obj.y p + vy * of_int Planet.TIMESTEP in
        Obj.mk x' y' (Obj.radius p) (Obj.color p) (Obj.mass p) (vx, vy)
          (Obj.orbit p ++ [(x', y')]) (Obj.sun p) (Obj.distance_to_sun p)).
Proof.
  intros Hm. unfold advance.
  cbn [truediv py_mul py_add exact and_then].
  destruct (Req_dec_T (Obj.mass p) 0) as [E | _]; [contradiction |].
  reflexivity.
Qed.

Lemma pair_reach_bounds : 0 < pair_reach < 1.
Proof. unfold pair_reach. rewrite G_value, TIMESTEP_value. lra. Qed.

Lemma G_positive : 0 < of_float Planet.G.
Proof. rewrite G_value. lra. Qed.

(** In exact arithmetic a step returns as soon as the forces do and the
    mass is not [0]. *)
Lemma exact_update_position (self : loc) (planets : list loc) (h : heap R)
    (total : R * R) :
  total_force self planets h = Ok total ->
  Obj.mass (h self) <> 0 ->
  exists h' d,
    Planet.update_position self planets h = (Ok tt, h') /\
    (forall l, l <> self -> h' l = h l) /\
    h' self = stepped total (Obj.set_distance_to_sun d (h self)).
Proof.
  intros Ht Hm.
  destruct (update_position_cases self planets h) as [[Ho [d Hd]] Hc].
  rewrite Ht, Hd, exact_advance in Hc by exact Hm.
  eexists _, d. split; [exact Hc |]. split.
  - intros l Hl. rewrite upd_other by exact Hl. now apply Ho.
  - now rewrite upd_same.
Qed.

Lemma exact_integrate (self : loc) (total : R * R) (h : heap R) :
  Obj.mass (h self) <> 0 ->
  Planet.integrate self total h = (Ok tt, upd self (stepped total (h self)) h).
Proof.
  intros Hm. pose proof (integrate_run self total h) as Hi.
  now rewrite exact_advance in Hi by exact Hm.
Qed.

(** ** Two unit masses in exact arithmetic *)

Lemma pair_planets_distinct : NoDup [0%nat; 1%nat].
Proof. repeat constructor; cbn; intuition lia. Qed.

(** Two unit masses at rest one unit of length apart, the first one
    flagged or not: the net forces, and a frame. *)
Lemma duo_force_on_first (h : heap R) (flag : bool) :
  h 0%nat = Obj.set_sun flag (at_rest 0) -> h 1%nat = at_rest 1 ->
  total_force 0 [0; 1]%nat h = Ok (of_float Planet.G, 0).
Proof.
  intros E0 E1. unfold total_force, others.
  cbn [filter Nat.eqb negb map add_up].
  rewrite exact_gravity_right by (rewrite E0, E1; exact_simpl; lra).
  rewrite E0, E1. exact_simpl. f_equal. f_equal; field.
Qed.

Lemma duo_force_on_second (h : heap R) (flag : bool) :
  h 0%nat = Obj.set_sun flag (at_rest 0) -> h 1%nat = at_rest 1 ->
  total_force 1 [0; 1]%nat h = Ok (- of_float Planet.G, 0).
Proof.
  intros E0 E1. unfold total_force, others.
  cbn [filter Nat.eqb negb map add_up].
  rewrite exact_gravity_left by (rewrite E0, E1; exact_simpl; lra).
  rewrite E0, E1. exact_simpl. f_equal. f_equal; field.
Qed.

Lemma duo_tick (h : heap R) (flag : bool) :
  h 0%nat = Obj.set_sun flag (at_rest 0) -> h 1%nat = at_rest 1 ->
  exists h1 h2 : heap R,
    Planet.update_position 0 [0; 1]%nat h = (Ok tt, h1) /\
    Planet.update_position 1 [0; 1]%nat h1 = (Ok tt, h2) /\
    tick [0; 1]%nat h = (Ok tt, h2) /\
    position (h2 0%nat) = (pair_reach, 0) /\
    Obj.velocity (h2 1%nat) =
      (- (of_float Planet.G / (1 - pair_reach) ^ 2) *
         of_int Planet.TIMESTEP, 0).
Proof.
  intros E0 E1.
  pose proof pair_reach_bounds as Hc.
  destruct (exact_update_position 0 [0; 1]%nat h _
              (duo_force_on_first h flag E0 E1))
    as (h1 & d1 & Hu1 & Hfr1 & H10).
  { rewrite E0. exact_simpl. lra. }
  assert (Hx0 : Obj.x (h1 0%nat) = pair_reach).
  { rewrite H10, E0. unfold stepped, pair_reach. exact_simpl. field. }
  assert (Hy0 : Obj.y (h1 0%nat) = 0).
  { rewrite H10, E0. unfold stepped. exact_simpl. field. }
  assert (Hm0 : Obj.mass (h1 0%nat) = 1).
  { rewrite H10, E0. unfold stepped. exact_simpl. reflexivity. }
  assert (H11 : h1 1%nat = at_rest 1) by (rewrite Hfr1 by lia; exact E1).
  assert (Hf : total_force 1 [0; 1]%nat h1 =
               Ok (- (of_float Planet.G / (1 - pair_reach) ^ 2), 0)).
  { unfold total_force, others.
    cbn [filter Nat.eqb negb map add_up].
    rewrite exact_gravity_left
      by (rewrite ?Hy0, ?Hx0, H11; exact_simpl; lra).
    rewrite Hx0, Hm0, H11. exact_simpl. f_equal. f_equal; field; lra. }
  destruct (exact_update_position 1 [0; 1]%nat h1 _ Hf)
    as (h2 & d2 & Hu2 & Hfr2 & H21).
  { rewrite H11. exact_simpl. lra. }
  exists h1, h2. split; [exact Hu1 |]. split; [exact Hu2 |]. split; [| split].
  - unfold tick. cbn [for_each]. unfold bind. rewrite Hu1, Hu2. reflexivity.
  - unfold position. rewrite Hfr2 by lia. now rewrite Hx0, Hy0.
  - rewrite H21, H11. unfold stepped. exact_simpl. f_equal; field; lra.
Qed.

Lemma pair_force_on_first :
  total_force 0 [0; 1]%nat pair_store = Ok (of_float Planet.G, 0).
Proof. exact (duo_force_on_first pair_store false eq_refl eq_refl). Qed.

Lemma pair_force_on_second :
  total_force 1 [0; 1]%nat pair_store = Ok (- of_float Planet.G, 0).
Proof. exact (duo_force_on_second pair_store false eq_refl eq_refl). Qed.

Lemma pair_tick :
  exists h' : heap R,
    tick [0; 1]%nat pair_store = (Ok tt, h') /\
    Obj.velocity (h' 1%nat) =
      (- (of_float Planet.G / (1 - pair_reach) ^ 2) *
         of_int Planet.TIMESTEP, 0).
Proof.
  destruct (duo_tick pair_store false eq_refl eq_refl)
    as (h1 & h2 & _ & _ & Ht & _ & Hv).
  now exists h2.
Qed.

Lemma pair_two_pass :
  exists h' : heap R,
    tick_two_pass [0; 1]%nat pair_store = (Ok tt, h') /\
    Obj.velocity (h' 1%nat) =
      (- of_float Planet.G * of_int Planet.TIMESTEP, 0).
Proof.
  unfold tick_two_pass. cbn [force_pass update_pass]. unfold bind, ret.
  pose proof (sum_forces_run 0 [0; 1]%nat (of_int 0) (of_int 0) pair_store)
    as Hs0.
  pose proof (sum_forces_frame 0 [0; 1]%nat (of_int 0) (of_int 0) pair_store)
    as Hf0.
  fold (total_force 0 [0; 1]%nat pair_store) in Hs0.
  rewrite pair_force_on_first in Hs0.
  destruct (Planet.sum_forces 0 [0; 1]%nat (of_int 0) (of_int 0) pair_store)
    as [r0 h0]. cbn [fst snd] in *. subst r0.
  pose proof (sum_forces_run 1 [0; 1]%nat (of_int 0) (of_int 0) h0) as Hs1.
  pose proof (sum_forces_frame 1 [0; 1]%nat (of_int 0) (of_int 0) h0) as Hf1.
  fold (total_force 1 [0; 1]%nat h0) in Hs1.
  assert (Hany : dts_any pair_store h0) by now apply (dts_only_any 0%nat).
  unfold total_force in Hs1.
  rewrite (add_up_ext pair_store h0 1%nat _ Hany) in Hs1.
  fold (total_force 1 [0; 1]%nat pair_store) in Hs1.
  rewrite pair_force_on_second in Hs1.
  destruct (Planet.sum_forces 1 [0; 1]%nat (of_int 0) (of_int 0) h0)
    as [r1 h1]. cbn [fst snd] in *. subst r1.
  assert (Hany1 : dts_any pair_store h1).
  { intros l. destruct (Hany l) as [d0 E0].
    destruct (dts_only_frame _ l _ _ Hf1) as [d1 E1].
    exists d1. rewrite E1, E0. reflexivity. }
  destruct (Hany1 0%nat) as [d0 E0], (Hany1 1%nat) as [d1 E1].
  rewrite exact_integrate by (rewrite E0; exact_simpl; lra).
  rewrite exact_integrate
    by (rewrite upd_other by lia; rewrite E1; exact_simpl; lra).
  eexists. split; [reflexivity |].
  rewrite upd_same, upd_other by lia. rewrite E1. unfold stepped.
  exact_simpl. f_equal; field.
Qed.

End Exact.

(** * The properties the specification states *)

(** Case analysis on the operations of a chain that is known to
    return. *)
Ltac chain_in E :=
  repeat match type of E with
         | context [match ?r with Ok _ => _ | Raise _ => _ end] =>
             lazymatch r with
             | context [match _ with Ok _ => _ | Raise _ => _ end] => fail
             | _ =>
                 destruct r eqn:?; cbv beta iota in E; [| discriminate E]
             end
         end.

Section Specified.
Context {num : Type} `{Arith num}.

(** ** The force law *)

(** C1, as the code has it. [attraction] returns [(force_x, force_y)]
    exactly when every operation of the formula returns, in the order in
    which the code performs them: [dx = other.x - self.x],
    [dy = other.y - self.y], [d = math.sqrt (dx ** 2 + dy ** 2)],
    [F = (G * m_self * m_other) / d ** 2], [angle = math.atan2 (dy, dx)],
    [force_x = F * math.cos (angle)], [force_y = F * math.sin (angle)],
    each operation being the one of the arithmetic at hand; otherwise
    the call raises, also at distinct positions. *)
Theorem attraction_newton (h : heap num) (self other : loc)
    (force_x force_y : num) :
  let s := h self in
  let o := h other in
  fst (Planet.attraction self other h) = Ok (force_x, force_y) <->
  exists dx dy dx2 dy2 sq d gm gmm d2 F angle c sn,
    py_sub (Obj.x o) (Obj.x s) = Ok dx /\
    py_sub (Obj.y o) (Obj.y s) = Ok dy /\
    pow_2 dx = Ok dx2 /\
    pow_2 dy = Ok dy2 /\
    py_add dx2 dy2 = Ok sq /\
    math_sqrt sq = Ok d /\
    py_mul (of_float Planet.G) (Obj.mass s) = Ok gm /\
    py_mul gm (Obj.mass o) = Ok gmm /\
    pow_2 d = Ok d2 /\
    truediv gmm d2 = Ok F /\
    math_atan2 dy dx = Ok angle /\
    math_cos angle = Ok c /\
    py_mul F c = Ok force_x /\
    math_sin angle = Ok sn /\
    py_mul F sn = Ok force_y.
Proof.
  intros s o. subst s o. rewrite attraction_run. cbn [fst].
  unfold gravity, hypot, pull, and_then. split.
  - intros E. chain_in E. injection E as <- <-.
    do 13 eexists. repeat split; eassumption.
  - intros (dx & dy & dx2 & dy2 & sq & d & gm & gmm & d2 & F & angle & c
            & sn & E1 & E2 & E3 & E4 & E5 & E6 & E7 & E8 & E9 & E10 & E11
            & E12 & E13 & E14 & E15).
    now rewrite E1, E2, E3, E4, E5, E6, E7, E8, E9, E10, E11, E12, E13,
      E14, E15.
Qed.

(** C5, as the code has it. [attraction (self, other)] changes nothing
    in the store but [self.distance_to_sun], and it assigns that field
    exactly when [other.sun] holds and the distance
    [math.sqrt (dx ** 2 + dy ** 2)] has been computed without an
    exception; the value is the one computed. This is so whether the
    call returns or raises. *)
Theorem attraction_frame (h : heap num) (self other l : loc) :
  let s := h self in
  let o := h other in
  snd (Planet.attraction self other h) l =
    if Nat.eqb l self then
      Obj.mk (Obj.x s) (Obj.y s) (Obj.radius s) (Obj.color s) (Obj.mass s)
        (Obj.velocity s) (Obj.orbit s) (Obj.sun s)
        (match separation s o with
         | Ok distance =>
             if Obj.sun o then distance else Obj.distance_to_sun s
         | Raise _ => Obj.distance_to_sun s
         end)
    else h l.
Proof.
  intros s o. rewrite attraction_run. cbn [snd].
  unfold seen. fold s o.
  destruct (Nat.eqb l self) eqn:E.
  - apply Nat.eqb_eq in E. subst l.
    destruct (separation s o); [| now destruct (h self)].
    destruct (Obj.sun o); [| now destruct (h self)].
    now rewrite upd_same.
  - apply Nat.eqb_neq in E.
    destruct (separation s o); [| reflexivity].
    destruct (Obj.sun o); [| reflexivity].
    now apply upd_other.
Qed.

(** ** One step of one body *)

(** What [advance] computes, operation by operation. *)
Lemma advance_spec (total : num * num) (p p' : Obj.t num) :
  advance total p = Ok p' <->
  exists ax ay d0 vx d1 vy s0 x' s1 y',
    truediv (fst total) (Obj.mass p) = Ok ax /\
    truediv (snd total) (Obj.mass p) = Ok ay /\
    py_mul ax (of_int Planet.TIMESTEP) = Ok d0 /\
    py_add (fst (Obj.velocity p)) d0 = Ok vx /\
    py_mul ay (of_int Planet.TIMESTEP) = Ok d1 /\
    py_add (snd (Obj.velocity p)) d1 = Ok vy /\
    py_mul vx (of_int Planet.TIMESTEP) = Ok s0 /\
    py_add (Obj.x p) s0 = Ok x' /\
    py_mul vy (of_int Planet.TIMESTEP) = Ok s1 /\
    py_add (Obj.y p) s1 = Ok y' /\
    p' = Obj.mk x' y' (Obj.radius p) (Obj.color p) (Obj.mass p) (vx, vy)
           (Obj.orbit p ++ [(x', y')]) (Obj.sun p) (Obj.distance_to_sun p).
Proof.
  unfold advance, and_then. split.
  - intros E. chain_in E. injection E as <-.
    do 10 eexists. repeat split; eassumption.
  - intros (ax & ay & d0 & vx & d1 & vy & s0 & x' & s1 & y' & E1 & E2 & E3
            & E4 & E5 & E6 & E7 & E8 & E9 & E10 & ->).
    now rewrite E1, E2, E3, E4, E5, E6, E7, E8, E9, E10.
Qed.

(** C2. [update_position] is one step of semi-implicit Euler for [self].
    A call that returns has added up, from [(0, 0)] and in list order,
    the forces of all other members of [planets] on [self], as
    [attraction] computes them on the store of the call; it has divided
    the sum by the mass, advanced the velocity by acceleration times
    [TIMESTEP], then the position by the new velocity times [TIMESTEP],
    and appended the new position to [orbit]; nothing else has moved.
    And the call returns exactly when these operations do. *)
Theorem update_position_euler (h : heap num) (self : loc)
    (planets : list loc) :
  let b := h self in
  let T := of_int Planet.TIMESTEP in
  (forall p, fst (Planet.attraction self p h) = gravity b (h p)) /\
  (forall h',
     Planet.update_position self planets h = (Ok tt, h') ->
     exists total ax ay d0 vx d1 vy s0 x' s1 y',
       add_up (of_int 0, of_int 0) b (map h (others self planets))
         = Ok total /\
       truediv (fst total) (Obj.mass b) = Ok ax /\
       truediv (snd total) (Obj.mass b) = Ok ay /\
       py_mul ax T = Ok d0 /\
       py_add (fst (Obj.velocity b)) d0 = Ok vx /\
       py_mul ay T = Ok d1 /\
       py_add (snd (Obj.velocity b)) d1 = Ok vy /\
       py_mul vx T = Ok s0 /\
       py_add (Obj.x b) s0 = Ok x' /\
       py_mul vy T = Ok s1 /\
       py_add (Obj.y b) s1 = Ok y' /\
       Obj.velocity (h' self) = (vx, vy) /\
       position (h' self) = (x', y') /\
       Obj.orbit (h' self) = Obj.orbit b ++ [(x', y')] /\
       Obj.mass (h' self) = Obj.mass b /\
       Obj.sun (h' self) = Obj.sun b /\
       forall l, l <> self -> h' l = h l) /\
  ((exists h', Planet.update_position self planets h = (Ok tt, h')) <->
   (exists total p',
      add_up (of_int 0, of_int 0) b (map h (others self planets))
        = Ok total /\
      advance total b = Ok p')).
Proof.
  intros b T. split; [| split].
  - intros p. now rewrite attraction_run.
  - intros h' Hu.
    destruct (update_position_ok self planets h h' Hu)
      as [Hfr (total & d & Ht & Ha & _)].
    apply advance_spec in Ha.
    destruct Ha as (ax & ay & d0 & vx & d1 & vy & s0 & x' & s1 & y' & E1
                    & E2 & E3 & E4 & E5 & E6 & E7 & E8 & E9 & E10 & E).
    exists total, ax, ay, d0, vx, d1, vy, s0, x', s1, y'.
    rewrite E. unfold position. obj_simpl.
    repeat split; assumption.
  - apply update_position_returns.
Qed.

(** ** The order of the updates within a frame *)

(** C3, as the code has it. Within a successful frame over distinct
    bodies the updates are made one body after the other, in list order:
    the forces on [b] are read in the store [h_mid] in which the bodies
    listed before [b] already are in their state of the end of the frame,
    while [b] and the bodies listed after it are as the frame found
    them. *)
Theorem tick_in_sequence (before after : list loc) (b : loc)
    (h h' : heap num) :
  NoDup (before ++ b :: after) ->
  tick (before ++ b :: after) h = (Ok tt, h') ->
  exists (h_mid : heap num) (total : num * num) (d : num),
    for_each before (before ++ b :: after) h = (Ok tt, h_mid) /\
    (forall l, In l before -> h_mid l = h' l) /\
    (forall l, ~ In l before -> h_mid l = h l) /\
    total_force b (before ++ b :: after) h_mid = Ok total /\
    advance total (Obj.set_distance_to_sun d (h b)) = Ok (h' b).
Proof.
  intros Hnd Hrun.
  exact (for_each_sequential before after _ b h h' Hnd Hrun).
Qed.

(** ** The recorded trajectory *)

(** C9. [__init__] creates a body with an empty [orbit]. In a collection
    of distinct bodies, a body whose [orbit] is empty has, after [k]
    frames, exactly [k] recorded positions; the [i]-th is its position at
    the end of the [i]-th frame, and the list only grows: what was
    recorded after [j <= k] frames is a prefix of what is recorded after
    [k]. *)
Theorem orbit_growth :
  (forall self x0 y0 r c m (h : heap num),
     Obj.orbit (snd (Planet.__init__ self x0 y0 r c m h) self) = []) /\
  (forall (planets : list loc) (b : loc) (k : nat) (h h' : heap num),
     NoDup planets -> In b planets ->
     Obj.orbit (h b) = [] ->
     run k planets h = (Ok tt, h') ->
     length (Obj.orbit (h' b)) = k /\
     (forall i, (i < k)%nat ->
        exists hi, run (S i) planets h = (Ok tt, hi) /\
                   nth_error (Obj.orbit (h' b)) i = Some (position (hi b))) /\
     (forall j hj, (j <= k)%nat -> run j planets h = (Ok tt, hj) ->
        exists later, Obj.orbit (h' b) = Obj.orbit (hj b) ++ later)).
Proof.
  split.
  { intros. rewrite init_run. cbn [snd]. now rewrite upd_same. }
  intros planets b k h h' Hnd Hb Hempty Hrun.
  destruct (run_orbit planets b Hnd Hb k h h' Hrun) as [path [Ho [Hlen Hnth]]].
  rewrite Hempty in Ho. cbn [app] in Ho. rewrite Ho.
  split; [exact Hlen | split; [exact Hnth |]].
  intros j hj Hj Hrj.
  replace k with (j + (k - j))%nat in Hrun by lia.
  apply run_split in Hrun. destruct Hrun as [hj' [Hrj' Hrest]].
  rewrite Hrj in Hrj'. injection Hrj' as <-.
  destruct (run_orbit planets b Hnd Hb _ hj h' Hrest) as [later [Hl _]].
  exists later. now rewrite <- Ho.
Qed.

(** ** The distance to the Sun of the Sun itself *)

(** C10. [__init__] sets [distance_to_sun] to [0]; and in a collection
    where no body other than [s] carries the [sun] flag, a
    [distance_to_sun] of [0] at [s] is still [0] after any number of
    frames, however they end. *)
Theorem primary_distance_zero :
  (forall self x0 y0 r c m (h : heap num),
     Obj.distance_to_sun
       (snd (Planet.__init__ self x0 y0 r c m h) self) = of_int 0) /\
  (forall planets s k (h : heap num),
     (forall q, In q planets -> Obj.sun (h q) = true -> q = s) ->
     Obj.distance_to_sun (h s) = of_int 0 ->
     Obj.distance_to_sun (snd (run k planets h) s) = of_int 0).
Proof.
  split.
  - intros. rewrite init_run. cbn [snd]. now rewrite upd_same.
  - intros planets s k h Huniq Hzero.
    set (P := fun h' : heap num =>
                (forall l, Obj.sun (h' l) = Obj.sun (h l)) /\
                Obj.distance_to_sun (h' s) = of_int 0).
    assert (HP : P (snd (run k planets h))); [| apply HP].
    apply run_inv; [| | split; [reflexivity | exact Hzero]].
    + intros self other d h1 _ Hin Hne Hflag _ [Hsun Hz]. split.
      * intros l. unfold upd. destruct (Nat.eqb l self) eqn:E; [| apply Hsun].
        apply Nat.eqb_eq in E. subst l. obj_simpl. apply Hsun.
      * rewrite Hsun in Hflag. apply Huniq in Hflag; [| exact Hin].
        subst other. rewrite upd_other by congruence. exact Hz.
    + intros self p' h1 _ [Hsun Hz] (_ & _ & _ & Hs & Hd). split.
      * intros l. unfold upd. destruct (Nat.eqb l self) eqn:E; [| apply Hsun].
        apply Nat.eqb_eq in E. subst l. rewrite Hs. apply Hsun.
      * unfold upd. destruct (Nat.eqb s self) eqn:E; [| exact Hz].
        apply Nat.eqb_eq in E. subst self. now rewrite Hd.
Qed.

(** ** Masses *)

(** C7, as the code has it. [__init__] never fails and stores the mass it
    is given, whatever its sign; no frame changes a mass afterwards. *)
Theorem init_keeps_any_mass :
  (forall self x0 y0 r c m (h : heap num),
     exists h', Planet.__init__ self x0 y0 r c m h = (Ok tt, h') /\
                Obj.mass (h' self) = m) /\
  (forall planets k (h : heap num) l,
     Obj.mass (snd (run k planets h) l) = Obj.mass (h l)).
Proof.
  split.
  - intros. eexists. split; [apply init_run |]. now rewrite upd_same.
  - intros planets k h.
    apply (run_inv (fun h' => forall l, Obj.mass (h' l) = Obj.mass (h l))
             planets).
    + intros self other d h1 _ _ _ _ _ Hm l. rewrite mass_upd_dts. apply Hm.
    + intros self p' h1 _ Hm (_ & _ & Hmass & _) l. unfold upd.
      destruct (Nat.eqb l self) eqn:E; [| apply Hm].
      apply Nat.eqb_eq in E. subst l. rewrite Hmass. apply Hm.
    + reflexivity.
Qed.

End Specified.

(** ** Newton's third law on floats *)

(** C4, as the code has it. On floats the two calls compute the same
    distance [d] and raise [ZeroDivisionError] together, but the two
    vectors are computed separately: [a.attraction (b)] is
    [F_ab * (cos t, sin t)] with [F_ab = (G * m_a * m_b) / d ** 2] and
    [t = atan2 (b.y - a.y, b.x - a.x)], [b.attraction (a)] is
    [F_ba * (cos t', sin t')] with [F_ba = (G * m_b * m_a) / d ** 2] and
    [t' = atan2 (a.y - b.y, a.x - b.x)], every operation rounded; the
    second vector need not be the opposite of the first. *)
Theorem attraction_third_law (L : Libm) (h : heap float) (a b : loc) :
  separation (h b) (h a) = separation (h a) (h b) /\
  (fst (Planet.attraction a b h) = Raise ZeroDivisionError <->
   fst (Planet.attraction b a h) = Raise ZeroDivisionError) /\
  fst (Planet.attraction a b h) =
    (d <~ separation (h a) (h b) ;;
     pull (Obj.mass (h a)) (Obj.mass (h b))
       (Obj.x (h b) - Obj.x (h a))%float
       (Obj.y (h b) - Obj.y (h a))%float d) /\
  fst (Planet.attraction b a h) =
    (d <~ separation (h a) (h b) ;;
     pull (Obj.mass (h b)) (Obj.mass (h a))
       (Obj.x (h a) - Obj.x (h b))%float
       (Obj.y (h a) - Obj.y (h b))%float d).
Proof.
  pose proof (separation_sym (h a) (h b)) as Hsym.
  split; [exact Hsym |].
  rewrite !attraction_run. cbn [fst]. split; [| split].
  - rewrite !gravity_zero_division, Hsym. reflexivity.
  - apply gravity_binary64.
  - rewrite gravity_binary64, Hsym. reflexivity.
Qed.

(** The conditions of [conforming] can be met. *)
Lemma conforming_compass : conforming compass_libm.
Proof. split; reflexivity. Qed.

(** The forces between two unit masses at [(0.0, 0.0)] and
    [(1.0, 0.0)], with any C library that conforms at the points of the
    compass. *)
Lemma gravity_east (L : Libm) :
  conforming L ->
  gravity (body_at 0) (body_at 1) = Ok (Planet.G, 0%float).
Proof.
  intros [_ _ E1 _ E3 E4 _ _].
  lazy -[c_pow c_atan2 c_cos c_sin]. rewrite E1.
  lazy -[c_pow c_atan2 c_cos c_sin]. rewrite E3, E4. lazy. reflexivity.
Qed.

Lemma gravity_west (L : Libm) :
  conforming L ->
  gravity (body_at 1) (body_at 0) =
    Ok ((- Planet.G)%float, (Planet.G * 0x1.1a62633145c07p-53)%float).
Proof.
  intros [_ _ _ E2 _ _ E5 E6]. unfold pi_float in *.
  lazy -[c_pow c_atan2 c_cos c_sin]. rewrite E2.
  lazy -[c_pow c_atan2 c_cos c_sin]. rewrite E5, E6. lazy. reflexivity.
Qed.

(** Against C4 as stated: for two unit masses at [(0.0, 0.0)] and
    [(1.0, 0.0)], with any C library that conforms at the points of the
    compass, both calls return and the vertical components are not
    opposite: the force on the first body is [(G, 0.0)], the force on
    the second [(-G, G * sin (pi))] with [sin (pi)] not zero. *)
Lemma third_law_fails_on_floats :
  position (span_store 1 1%nat) <> position (span_store 1 0%nat) /\
  forall L : Libm, conforming L ->
    exists f g : float * float,
      fst (Planet.attraction 0 1 (span_store 1)) = Ok f /\
      fst (Planet.attraction 1 0 (span_store 1)) = Ok g /\
      (snd g =? - snd f)%float = false.
Proof.
  split.
  { intros E. apply (f_equal (fun q => Prim2SF (fst q))) in E.
    vm_compute in E. discriminate. }
  intros L HL.
  assert (A : fst (Planet.attraction 0 1 (span_store 1))
              = Ok (Planet.G, 0%float))
    by (rewrite attraction_run; exact (gravity_east L HL)).
  assert (B : fst (Planet.attraction 1 0 (span_store 1))
              = Ok ((- Planet.G)%float,
                    (Planet.G * 0x1.1a62633145c07p-53)%float))
    by (rewrite attraction_run; exact (gravity_west L HL)).
  eexists _, _. split; [exact A |]. split; [exact B |].
  vm_compute. reflexivity.
Qed.

(** ** Coincident and close bodies on floats *)

(** C6, as the code has it. On floats [attraction] raises
    [ZeroDivisionError] exactly when the square of the distance it has
    computed is zero. That is the case for two bodies at the same
    finite position; it is also the case for distinct positions whose
    offsets underflow when squared, and it is not the case for
    coincident bodies with an infinite coordinate. *)
Theorem attraction_coincident (L : Libm) (h : heap float)
    (self other : loc) :
  (fst (Planet.attraction self other h) = Raise ZeroDivisionError <->
   exists d d2 : float,
     separation (h self) (h other) = Ok d /\
     pow_2 d = Ok d2 /\
     (d2 =? 0)%float = true) /\
  (position (h other) = position (h self) ->
   is_finite (Obj.x (h self)) = true ->
   is_finite (Obj.y (h self)) = true ->
   fst (Planet.attraction self other h) = Raise ZeroDivisionError).
Proof.
  rewrite attraction_run. cbn [fst]. split.
  - apply gravity_zero_division.
  - intros Hsame Hx Hy. apply gravity_zero_division.
    exists 0%float, 0%float.
    split; [now apply separation_same_place |]. split; reflexivity.
Qed.

(** Against C6 as stated: two bodies [1e-200] apart are at distinct
    positions and, with any C library whose [pow] underflows to zero
    there, the call raises [ZeroDivisionError]; two bodies at the same
    place with an infinite abscissa are coincident and the call does not
    raise it. *)
Lemma attraction_raises_when_close :
  position (span_store 1e-200 1%nat) <> position (span_store 1e-200 0%nat) /\
  (forall L : Libm, conforming L ->
     fst (Planet.attraction 0 1 (span_store 1e-200))
       = Raise ZeroDivisionError) /\
  (forall L : Libm,
     fst (Planet.attraction 0 1 (fun _ => body_at infinity))
       <> Raise ZeroDivisionError).
Proof.
  split; [| split].
  - intros E. apply (f_equal (fun q => Prim2SF (fst q))) in E.
    vm_compute in E. discriminate.
  - intros L [_ P _ _ _ _ _ _]. rewrite attraction_run. cbn [fst].
    lazy -[c_pow c_atan2 c_cos c_sin]. rewrite P. lazy. reflexivity.
  - intros L Hr. rewrite attraction_run in Hr. cbn [fst] in Hr.
    apply gravity_zero_division in Hr.
    destruct Hr as (d & d2 & Hd & Hd2 & Hz).
    assert (Hn : separation (body_at infinity) (body_at infinity) = Ok nan)
      by (vm_compute; reflexivity).
    rewrite Hn in Hd.
    assert (Ed : d = nan)
      by (apply (f_equal (fun r => match r with Ok v => v | Raise _ => nan end))
            in Hd; symmetry; exact Hd).
    subst d.
    assert (Hp : pow_2 nan = Ok nan) by (vm_compute; reflexivity).
    rewrite Hp in Hd2.
    assert (Ed2 : d2 = nan)
      by (apply (f_equal (fun r => match r with Ok v => v | Raise _ => nan end))
            in Hd2; symmetry; exact Hd2).
    subst d2. vm_compute in Hz. discriminate.
Qed.

(** Against C1 as stated: two bodies [1e200] apart are at distinct
    positions and, with any C library whose [pow] overflows there, the
    call returns no force: [dx ** 2] raises [OverflowError]. *)
Lemma attraction_raises_far_apart :
  position (span_store 1e200 1%nat) <> position (span_store 1e200 0%nat) /\
  forall L : Libm, conforming L ->
    fst (Planet.attraction 0 1 (span_store 1e200)) = Raise OverflowError.
Proof.
  split.
  - intros E. apply (f_equal (fun q => Prim2SF (fst q))) in E.
    vm_compute in E. discriminate.
  - intros L [P _ _ _ _ _ _ _]. rewrite attraction_run. cbn [fst].
    lazy -[c_pow c_atan2 c_cos c_sin]. rewrite P. lazy. reflexivity.
Qed.

(** Against C5 as stated: the other body carries the [sun] flag, and,
    with any C library whose [pow] overflows at [1e200], the call leaves
    [self.distance_to_sun] as it was, [0], although the two bodies are
    [1e200] apart: the exception of [dx ** 2] comes before the
    assignment. *)
Lemma attraction_overflow_skips_write :
  Obj.sun (star_span_store 1e200 1%nat) = true /\
  forall L : Libm, conforming L ->
    fst (Planet.attraction 0 1 (star_span_store 1e200))
      = Raise OverflowError /\
    Obj.distance_to_sun
      (snd (Planet.attraction 0 1 (star_span_store 1e200)) 0%nat)
      = 0%float.
Proof.
  split; [reflexivity |]. intros L [P _ _ _ _ _ _ _].
  rewrite attraction_run. cbn [fst snd].
  split; lazy -[c_pow c_atan2 c_cos c_sin]; rewrite P; lazy; reflexivity.
Qed.

(** ** A body alone *)






(** Against C7 as stated: a body is created with the mass [-1], and no
    error is raised. *)
Lemma init_negative_mass :
  (-1 <= 0)%R /\
  fst (Planet.__init__ 0 0%R 0%R 1 WHITE (-1)%R sun_store) = Ok tt /\
  Obj.mass (snd (Planet.__init__ 0 0%R 0%R 1 WHITE (-1)%R sun_store) 0%nat)
    = (-1)%R.
Proof. split; [lra | split; reflexivity]. Qed.

(** Against C3 as stated: in exact arithmetic, on the two unit masses
    the sequential frame and the two-pass frame both succeed and leave
    the second body with different velocities. *)
Lemma tick_differs_from_two_pass :
  exists h_seq h_two : heap R,
    tick [0; 1]%nat pair_store = (Ok tt, h_seq) /\
    tick_two_pass [0; 1]%nat pair_store = (Ok tt, h_two) /\
    Obj.velocity (h_seq 1%nat) <> Obj.velocity (h_two 1%nat).
Proof.
  destruct pair_tick as [h_seq [Hs Hvs]].
  destruct pair_two_pass as [h_two [Ht Hvt]].
  exists h_seq, h_two. split; [exact Hs |]. split; [exact Ht |].
  rewrite Hvs, Hvt. intros E. apply (f_equal fst) in E. cbn [fst] in E.
  pose proof pair_reach_bounds as Hc.
  pose proof G_positive as HG.
  rewrite TIMESTEP_value in E.
  set (g := of_float Planet.G) in *.
  assert (Hu : (0 < (1 - pair_reach) ^ 2 < 1)%R) by nra.
  assert (Hq : (g / (1 - pair_reach) ^ 2 = g)%R) by lra.
  apply (f_equal (fun v => (v * (1 - pair_reach) ^ 2)%R)) in Hq.
  unfold Rdiv in Hq. rewrite Rmult_assoc, Rinv_l, Rmult_1_r in Hq by lra.
  nra.
Qed.

(** * Further properties of the code *)

Section Extras.
Context {num : Type} `{Arith num}.

(** ** How [update_position] fails *)

(** X1. An [update_position] that raises has touched no other body and
    has left the radius, the colour, the mass, the [sun] flag, the
    ordinate and the [orbit] of [self] as they were. When [+] and [*]
    cannot raise, as on floats, it has assigned nothing but
    [self.distance_to_sun]: no velocity and no position is changed by a
    failed call. *)
Theorem update_position_failure (self : loc) (planets : list loc)
    (h h' : heap num) (e : exn) :
  Planet.update_position self planets h = (Raise e, h') ->
  (forall l, l <> self -> h' l = h l) /\
  Obj.radius (h' self) = Obj.radius (h self) /\
  Obj.color (h' self) = Obj.color (h self) /\
  Obj.mass (h' self) = Obj.mass (h self) /\
  Obj.sun (h' self) = Obj.sun (h self) /\
  Obj.y (h' self) = Obj.y (h self) /\
  Obj.orbit (h' self) = Obj.orbit (h self) /\
  (total2 py_add -> total2 py_mul ->
   exists d,
     h' self =
       Obj.mk (Obj.x (h self)) (Obj.y (h self)) (Obj.radius (h self))
         (Obj.color (h self)) (Obj.mass (h self)) (Obj.velocity (h self))
         (Obj.orbit (h self)) (Obj.sun (h self)) d).
Proof.
  intros Hu. apply update_position_raise in Hu.
  destruct Hu as [[Ho [d Hd]] Hc].
  set (h1 := snd (Planet.sum_forces self planets (of_int 0) (of_int 0) h))
    in *.
  destruct Hc as [-> | (total & Hi & v & x1 & E)].
  - split; [exact Ho |]. rewrite Hd. repeat split.
    intros _ _. now exists d.
  - split.
    { intros l Hl. rewrite E, upd_other by exact Hl. now apply Ho. }
    assert (Hs : h' self = Obj.set_x x1 (Obj.set_velocity v (h1 self)))
      by (rewrite E; apply upd_same).
    assert (Hlast : total2 py_add -> total2 py_mul ->
                    exists d0, h' self = Obj.set_distance_to_sun d0 (h self)).
    { intros Hadd Hmul. exists d.
      rewrite (integrate_atomic self total h1 h' e Hadd Hmul Hi).
      exact Hd. }
    revert Hlast. rewrite Hs, Hd. intros Hlast. repeat split.
    exact Hlast.
Qed.

(** ** What the frames never change *)

(** X4. However many frames are run and however they end, the radius,
    the colour and the [sun] flag of every body stay as they are, and a
    body that is not in the list is not touched at all. *)
Theorem run_keeps_identity (k : nat) (planets : list loc) (h : heap num)
    (l : loc) :
  Obj.radius (snd (run k planets h) l) = Obj.radius (h l) /\
  Obj.color (snd (run k planets h) l) = Obj.color (h l) /\
  Obj.sun (snd (run k planets h) l) = Obj.sun (h l) /\
  (~ In l planets -> snd (run k planets h) l = h l).
Proof.
  set (P := fun h' : heap num =>
         forall l, Obj.radius (h' l) = Obj.radius (h l) /\
                   Obj.color (h' l) = Obj.color (h l) /\
                   Obj.sun (h' l) = Obj.sun (h l) /\
                   (~ In l planets -> h' l = h l)).
  assert (HP : P (snd (run k planets h))); [| apply HP].
  apply run_inv.
  - intros self other d h1 Hself _ _ _ _ H1 q.
    destruct (H1 q) as (Hr & Hc & Hs & Hout).
    unfold upd. destruct (Nat.eqb q self) eqn:E.
    + apply Nat.eqb_eq in E. subst q. obj_simpl.
      repeat split; try assumption. intros Hq. contradiction.
    + repeat split; assumption.
  - intros self p' h1 Hself H1 (Mr & Mc & _ & Ms & _) q.
    destruct (H1 q) as (Hr & Hc & Hs & Hout).
    unfold upd. destruct (Nat.eqb q self) eqn:E.
    + apply Nat.eqb_eq in E. subst q.
      rewrite Mr, Mc, Ms. repeat split; try assumption.
      intros Hq. contradiction.
    + repeat split; assumption.
  - intros q. repeat split.
Qed.

(** X5. In a list none of whose members carries the [sun] flag no
    [distance_to_sun] is ever written: every body keeps the value it
    had, however many frames are run and however they end. *)
Theorem run_without_sun (k : nat) (planets : list loc) (h : heap num) :
  (forall q, In q planets -> Obj.sun (h q) = false) ->
  forall l,
    Obj.distance_to_sun (snd (run k planets h) l) =
    Obj.distance_to_sun (h l).
Proof.
  intros Hno.
  set (P := fun h' : heap num =>
         forall l, Obj.sun (h' l) = Obj.sun (h l) /\
                   Obj.distance_to_sun (h' l) = Obj.distance_to_sun (h l)).
  assert (HP : P (snd (run k planets h))); [| intros l; apply HP].
  apply run_inv.
  - intros self other d h1 _ Hin _ Hflag _ H1 q. exfalso.
    destruct (H1 other) as [Hs _]. rewrite Hs, (Hno other Hin) in Hflag.
    discriminate.
  - intros self p' h1 _ H1 (_ & _ & _ & Ms & Md) q. unfold upd.
    destruct (Nat.eqb q self) eqn:E; [| apply H1].
    apply Nat.eqb_eq in E. subst q. rewrite Ms, Md. apply H1.
  - intros q. split; reflexivity.
Qed.

(** X7. Each completed frame records one position per occurrence of a
    body in the list: after [k] frames the [orbit] of [b] is longer by
    [k] times the number of times [b] is listed (a body listed twice is
    advanced twice per frame, one not listed never). *)
Theorem run_orbit_count (k : nat) (planets : list loc) (b : loc)
    (h h' : heap num) :
  run k planets h = (Ok tt, h') ->
  length (Obj.orbit (h' b)) =
  (length (Obj.orbit (h b)) + k * count_occ Nat.eq_dec planets b)%nat.
Proof.
  revert h. induction k as [| k IH]; intros h E; cbn [run] in E.
  - injection E as <-. lia.
  - unfold bind in E. destruct (tick planets h) as [[[] | e] h1] eqn:Ht;
      [| discriminate].
    rewrite (IH h1 E). unfold tick in Ht.
    rewrite (for_each_count planets planets h h1 Ht b). lia.
Qed.

(** ** The distance shown for a planet *)

(** X8. When [s] is the only flagged member of the list, a successful
    [update_position] of another body leaves in its [distance_to_sun]
    the distance from [s] to the place the body had before the call
    moved it, not to the place it has now: the value is the distance
    expression of [attraction] on the positions of the store of the
    call. *)
Theorem update_position_shows_old_distance (self s : loc)
    (planets : list loc) (h h' : heap num) :
  In s planets -> s <> self -> Obj.sun (h s) = true ->
  (forall q, In q planets -> Obj.sun (h q) = true -> q = s) ->
  Planet.update_position self planets h = (Ok tt, h') ->
  (dx <~ py_sub (Obj.x (h s)) (Obj.x (h self)) ;;
   dy <~ py_sub (Obj.y (h s)) (Obj.y (h self)) ;;
   dx2 <~ pow_2 dx ;;
   dy2 <~ pow_2 dy ;;
   sq <~ py_add dx2 dy2 ;;
   math_sqrt sq) = Ok (Obj.distance_to_sun (h' self)) /\
  position (h' s) = position (h s).
Proof.
  intros Hin Hne Hs Hu Hrun. split.
  - exact (update_position_distance self s planets h h' Hin Hne Hs Hu Hrun).
  - destruct (update_position_ok self planets h h' Hrun) as [Hfr _].
    now rewrite Hfr.
Qed.

(** X9. In a frame over distinct bodies whose first, [s], is the only
    flagged one (as in [main]), every other body ends the frame with a
    [distance_to_sun] that mixes two instants: it is the distance from
    the place the body had before the frame to the place [s] has after
    it. *)
Theorem tick_distance_mixes_instants (s b : loc) (rest : list loc)
    (h h' : heap num) :
  NoDup (s :: rest) -> In b rest ->
  Obj.sun (h s) = true ->
  (forall q, In q rest -> Obj.sun (h q) = false) ->
  tick (s :: rest) h = (Ok tt, h') ->
  (dx <~ py_sub (Obj.x (h' s)) (Obj.x (h b)) ;;
   dy <~ py_sub (Obj.y (h' s)) (Obj.y (h b)) ;;
   dx2 <~ pow_2 dx ;;
   dy2 <~ pow_2 dy ;;
   sq <~ py_add dx2 dy2 ;;
   math_sqrt sq) = Ok (Obj.distance_to_sun (h' b)).
Proof.
  intros Hnd Hb Hs Hno Hrun.
  destruct (in_split b rest Hb) as [r1 [r2 ->]].
  change (s :: r1 ++ b :: r2) with ((s :: r1) ++ b :: r2) in *.
  unfold tick in Hrun.
  destruct (for_each_step (s :: r1) r2 _ b h h' Hnd Hrun)
    as [h_mid [h_b [Hmid [Hu [Hb' [Hin Hout]]]]]].
  assert (Hsb : s <> b).
  { intros ->. inversion Hnd as [| ? ? Hs' _]. subst. contradiction. }
  assert (Hsun : forall l, Obj.sun (h_mid l) = Obj.sun (h l)).
  { intros l.
    pose proof (for_each_sun (s :: r1) ((s :: r1) ++ b :: r2) h l) as E.
    rewrite Hmid in E. apply E. apply incl_appl, incl_refl. }
  assert (Hbout : ~ In b (s :: r1)).
  { intros Hc. apply (NoDup_remove_2 _ _ _ Hnd), in_or_app. now left. }
  rewrite Hb'.
  assert (Hd : separation (h_mid b) (h_mid s) =
               Ok (Obj.distance_to_sun (h_b b))).
  { apply (update_position_distance b s ((s :: r1) ++ b :: r2) h_mid h_b);
      [now left | exact Hsb | now rewrite Hsun | | exact Hu].
    intros q [<- | Hq] Hq'; [reflexivity |].
    rewrite Hsun, (Hno q Hq) in Hq'. discriminate. }
  rewrite (Hout b Hbout), (Hin s) in Hd by now left.
  exact Hd.
Qed.

(** ** More on the force *)

(** X12. Asking twice is asking once: a second [attraction (self, other)]
    right after the first returns the same outcome and leaves the store
    the first call left. *)
Theorem attraction_twice (h : heap num) (self other : loc) :
  Planet.attraction self other (snd (Planet.attraction self other h)) =
  Planet.attraction self other h.
Proof.
  rewrite !attraction_run. cbn [snd].
  rewrite seen_seen.
  now rewrite (dts_any_gravity h _ self other (dts_any_seen self other h)).
Qed.

(** ** Drawing *)


(** X16. The trail of a body appears with its third frame: for distinct
    bodies and an [orbit] empty at the start, what [draw] draws of a
    body after [k] completed frames contains a polyline only when
    [k >= 3], and when [k >= 3] it contains the polyline of the recorded
    positions scaled to the window as soon as these can all be scaled,
    which is the case when the drawing completes; that polyline, open
    and of width [2], has [k] points. *)
Theorem trail_from_third_frame (F : Pygame num) (planets : list loc) (b : loc)
    (k : nat) (h h' : heap num) :
  NoDup planets -> In b planets -> Obj.orbit (h b) = [] ->
  run k planets h = (Ok tt, h') ->
  (forall c cl pts w,
     In (Lines c cl pts w) (fst (Planet.draw F (h' b))) ->
     (3 <= k)%nat /\ c = Obj.color (h' b) /\ cl = false /\ w = 2%Z /\
     length pts = k /\
     map_result Planet.to_screen (Obj.orbit (h' b)) = Ok pts) /\
  ((3 <= k)%nat ->
   forall pts,
     map_result Planet.to_screen (Obj.orbit (h' b)) = Ok pts ->
     In (Lines (Obj.color (h' b)) false pts 2)
        (fst (Planet.draw F (h' b)))) /\
  ((3 <= k)%nat -> snd (Planet.draw F (h' b)) = Ok tt ->
   exists pts,
     In (Lines (Obj.color (h' b)) false pts 2) (fst (Planet.draw F (h' b)))).
Proof.
  intros Hnd Hb Hempty Hrun.
  destruct (run_orbit planets b Hnd Hb k h h' Hrun)
    as [path [Ho [Hlen Hnth]]].
  rewrite Hempty in Ho. cbn [app] in Ho.
  assert (Hk : length (Obj.orbit (h' b)) = k) by now rewrite Ho.
  split; [| split].
  - intros c cl pts w Hl. apply draw_lines in Hl.
    destruct Hl as (_ & Hlen' & -> & -> & -> & Hp).
    repeat split; try assumption; [lia |].
    now rewrite (map_result_length _ _ _ Hp).
  - intros H3 pts Hp. apply draw_lines.
    repeat split; try assumption; [| lia].
    destruct k as [| k']; [lia |].
    destruct (Hnth k' (Nat.lt_succ_diag_r k')) as [hk [Hk' Hlast]].
    rewrite Hrun in Hk'. injection Hk' as <-.
    rewrite <- Ho in Hlast. apply nth_error_In in Hlast.
    exact (map_result_In _ _ _ _ Hp Hlast).
  - intros H3 Hdraw.
    assert (Hpts : exists xy pts,
               Planet.to_screen (Obj.x (h' b), Obj.y (h' b)) = Ok xy /\
               map_result Planet.to_screen (Obj.orbit (h' b)) = Ok pts).
    { unfold Planet.draw, Planet.draw_trail in Hdraw.
      unfold then_draw at 1, eval at 1 in Hdraw.
      destruct (Planet.to_screen _) as [xy |]; [| discriminate].
      replace (Nat.ltb 2 (length (Obj.orbit (h' b)))) with true in Hdraw
        by (symmetry; apply Nat.ltb_lt; lia).
      unfold then_draw, eval in Hdraw. cbn [fst snd] in Hdraw.
      destruct (map_result Planet.to_screen _) as [pts |];
        [eauto | discriminate]. }
    destruct Hpts as (xy & pts & Hxy & Hp). exists pts.
    apply draw_lines. repeat split; try assumption; [eauto | lia].
Qed.

End Extras.

(** * The statements at concrete inputs *)

Lemma update_position_euler_witness :
  Obj.orbit (span_store 1 0%nat) = [] /\
  forall L : Libm, conforming L ->
    exists h' : heap float,
      Planet.update_position 0 [0; 1]%nat (span_store 1) = (Ok tt, h') /\
      Obj.orbit (h' 0%nat) = [position (h' 0%nat)] /\
      h' 1%nat = span_store 1 1%nat.
Proof.
  split; [reflexivity |]. intros L HL.
  assert (Hu : exists h',
             Planet.update_position 0 [0; 1]%nat (span_store 1)
               = (Ok tt, h')).
  { apply update_position_returns. unfold total_force.
    cbn [others filter Nat.eqb negb map add_up span_store].
    rewrite (gravity_east L HL).
    eexists _, _. split; vm_compute; reflexivity. }
  destruct Hu as [h1 Hu]. exists h1. split; [exact Hu |].
  destruct (proj1 (proj2 (update_position_euler (span_store 1) 0
                            [0; 1]%nat)) h1 Hu)
    as (total & ax & ay & d0 & vx & d1 & vy & s0 & x' & s1 & y' & _ & _ & _
        & _ & _ & _ & _ & _ & _ & _ & _ & _ & Hp & Ho & _ & _ & Hfr).
  rewrite Ho, Hp. split; [reflexivity |]. apply Hfr. lia.
Defined.

Lemma tick_in_sequence_witness :
  NoDup ([0%nat] ++ 1%nat :: []) /\
  exists h' h_mid : heap R,
    tick [0; 1]%nat pair_store = (Ok tt, h') /\
    for_each [0%nat] [0; 1]%nat pair_store = (Ok tt, h_mid) /\
    h_mid 0%nat = h' 0%nat /\
    h_mid 1%nat = pair_store 1%nat.
Proof.
  split; [exact pair_planets_distinct |].
  destruct pair_tick as [h' [Hrun _]].
  destruct (tick_in_sequence [0%nat] [] 1%nat pair_store h'
              pair_planets_distinct Hrun)
    as (h_mid & total & d & Hmid & Hin & Hout & _).
  exists h', h_mid. split; [exact Hrun |]. split; [exact Hmid |].
  split; [apply Hin; now left |].
  apply Hout. cbn. intros [E | []]. discriminate.
Defined.

Lemma orbit_growth_witness :
  NoDup [0%nat; 1%nat] /\ In 1%nat [0%nat; 1%nat] /\
  Obj.orbit (pair_store 1%nat) = [] /\
  exists h' : heap R,
    run 1 [0; 1]%nat pair_store = (Ok tt, h') /\
    Obj.orbit (h' 1%nat) = [position (h' 1%nat)].
Proof.
  assert (Hin : In 1%nat [0%nat; 1%nat]) by (cbn; tauto).
  split; [exact pair_planets_distinct |]. split; [exact Hin |].
  split; [reflexivity |].
  destruct pair_tick as [h' [Htick _]].
  assert (Hrun : run 1 [0; 1]%nat pair_store = (Ok tt, h'))
    by (rewrite run_one; exact Htick).
  destruct (proj2 orbit_growth [0; 1]%nat 1%nat 1%nat pair_store h'
              pair_planets_distinct Hin eq_refl Hrun) as [Hlen [Hnth _]].
  exists h'. split; [exact Hrun |].
  destruct (Hnth 0%nat (Nat.lt_0_succ 0)) as [h1 [H1 Hn]].
  rewrite Hrun in H1. injection H1 as <-.
  destruct (Obj.orbit (h' 1%nat)) as [| p [| q rest]];
    cbn in Hlen, Hn; try discriminate.
  now injection Hn as ->.
Defined.

Lemma main_only_sun (L : Libm) (q : loc) :
  In q main_planets ->
  Obj.sun (main_store (num := float) q) = true -> q = 0%nat.
Proof.
  unfold main_planets. cbn [In].
  intros [<- | [<- | [<- | [<- | [<- | [<- | [<- | [<- | [<- | []]]]]]]]]];
    lazy; congruence.
Qed.

Lemma primary_distance_zero_witness :
  length main_planets = 9%nat /\
  forall L : Libm,
    fst (main_setup (blank (num := float))) = Ok main_planets /\
    (forall q, In q main_planets ->
               Obj.sun (main_store (num := float) q) = true -> q = 0%nat) /\
    Obj.distance_to_sun (main_store (num := float) 0%nat) = 0%float /\
    Obj.distance_to_sun (snd (run 365 main_planets main_store) 0%nat)
      = 0%float.
Proof.
  split; [reflexivity |]. intros L.
  assert (Hz : Obj.distance_to_sun (main_store (num := float) 0%nat)
               = of_int 0)
    by reflexivity.
  split; [reflexivity |]. split; [exact (main_only_sun L) |].
  split; [exact Hz |].
  exact (proj2 primary_distance_zero main_planets 0%nat 365%nat main_store
           (main_only_sun L) Hz).
Defined.



Lemma attraction_coincident_witness :
  position (span_store 0 1%nat) = position (span_store 0 0%nat) /\
  forall L : Libm,
    fst (Planet.attraction 0 1 (span_store 0)) = Raise ZeroDivisionError.
Proof.
  split; [reflexivity |]. intros L.
  exact (proj2 (attraction_coincident L (span_store 0) 0 1)
           eq_refl eq_refl eq_refl).
Defined.

Lemma binary64_add_total (L : Libm) : total2 (num := float) py_add.
Proof. intros a b. eexists. reflexivity. Qed.

Lemma binary64_mul_total (L : Libm) : total2 (num := float) py_mul.
Proof. intros a b. eexists. reflexivity. Qed.

Lemma update_position_failure_witness :
  position (span_store 0 1%nat) = position (span_store 0 0%nat) /\
  forall L : Libm,
    exists h' : heap float,
      Planet.update_position 0 [0; 1]%nat (span_store 0)
        = (Raise ZeroDivisionError, h') /\
      Obj.velocity (h' 0%nat) = (0, 0)%float /\
      Obj.orbit (h' 0%nat) = [] /\
      h' 1%nat = span_store 0 1%nat.
Proof.
  split; [reflexivity |]. intros L.
  assert (Hu : exists h',
             Planet.update_position 0 [0; 1]%nat (span_store 0)
               = (Raise ZeroDivisionError, h')).
  { destruct (Planet.update_position 0 [0; 1]%nat (span_store 0))
      as [r h'] eqn:E.
    assert (Hr : r = Raise ZeroDivisionError).
    { change r with (fst (r, h')). rewrite <- E.
      unfold Planet.update_position, bind.
      pose proof (sum_forces_run 0 [0; 1]%nat (of_int 0) (of_int 0)
                    (span_store 0)) as Hs.
      destruct (Planet.sum_forces 0 [0; 1]%nat (of_int 0) (of_int 0)
                  (span_store 0)) as [r0 h0].
      cbn [fst] in Hs. rewrite Hs. vm_compute. reflexivity. }
    subst r. now exists h'. }
  destruct Hu as [h' Hu]. exists h'. split; [exact Hu |].
  destruct (update_position_failure 0 [0; 1]%nat (span_store 0) h'
              ZeroDivisionError Hu)
    as (Ho & _ & _ & _ & _ & _ & _ & Hatom).
  destruct (Hatom (binary64_add_total L) (binary64_mul_total L)) as [d ->].
  split; [reflexivity |]. split; [reflexivity |]. apply Ho. lia.
Defined.

Lemma run_keeps_identity_witness :
  ~ In 1%nat [0%nat] /\ snd (run 7 [0%nat] pair_store) 1%nat = at_rest 1.
Proof.
  assert (Hn : ~ In 1%nat [0%nat]) by (cbn; intros [E | []]; discriminate).
  split; [exact Hn |].
  destruct (run_keeps_identity 7 [0%nat] pair_store 1%nat) as (_ & _ & _ & Ho).
  rewrite (Ho Hn). reflexivity.
Defined.

Lemma run_without_sun_witness :
  (forall q, In q [0; 1]%nat -> Obj.sun (pair_store q) = false) /\
  Obj.distance_to_sun (snd (run 9 [0; 1]%nat pair_store) 1%nat) = 0%R.
Proof.
  assert (Hn : forall q, In q [0; 1]%nat -> Obj.sun (pair_store q) = false)
    by (intros q [<- | [<- | []]]; reflexivity).
  split; [exact Hn |].
  rewrite (run_without_sun 9 [0; 1]%nat pair_store Hn 1%nat). reflexivity.
Defined.

Lemma run_orbit_count_witness :
  count_occ Nat.eq_dec [0; 0]%nat 0%nat = 2%nat /\
  forall L : Libm,
    exists h' : heap float,
      run 1 [0; 0]%nat (fun _ => body_at 5) = (Ok tt, h') /\
      length (Obj.orbit (h' 0%nat)) = 2%nat.
Proof.
  split; [reflexivity |]. intros L.
  assert (Hrun : exists h', run 1 [0; 0]%nat (fun _ => body_at 5)
                            = (Ok tt, h'))
    by (eexists; vm_compute; reflexivity).
  destruct Hrun as [h' Hrun]. exists h'. split; [exact Hrun |].
  rewrite (run_orbit_count 1 [0; 0]%nat 0%nat _ h' Hrun). reflexivity.
Defined.

Lemma star_only_sun (q : loc) :
  In q [0; 1]%nat -> Obj.sun (star_store q) = true -> q = 0%nat.
Proof. intros [<- | [<- | []]] E; [reflexivity | discriminate]. Qed.

Lemma update_position_shows_old_distance_witness :
  exists h' : heap R,
    Planet.update_position 1 [0; 1]%nat star_store = (Ok tt, h') /\
    Obj.distance_to_sun (h' 1%nat) = 1%R.
Proof.
  destruct (exact_update_position 1 [0; 1]%nat star_store _
              (duo_force_on_second star_store true eq_refl eq_refl))
    as (h' & d & Hu & _).
  { exact_simpl. lra. }
  exists h'. split; [exact Hu |].
  assert (Hin : In 0%nat [0; 1]%nat) by (cbn; tauto).
  destruct (update_position_shows_old_distance 1 0 [0; 1]%nat star_store h'
              Hin (Nat.neq_0_succ 0) eq_refl star_only_sun Hu) as [Hd _].
  change (separation (star_store 1%nat) (star_store 0%nat)
          = Ok (Obj.distance_to_sun (h' 1%nat))) in Hd.
  rewrite exact_separation in Hd. injection Hd as <-.
  unfold distance. exact_simpl.
  replace ((0 - 1) ^ 2 + (0 - 0) ^ 2)%R with 1%R by ring. apply sqrt_1.
Defined.

Lemma tick_distance_mixes_instants_witness :
  NoDup [0; 1]%nat /\
  exists h' : heap R,
    tick [0; 1]%nat star_store = (Ok tt, h') /\
    Obj.distance_to_sun (h' 1%nat) = (1 - pair_reach)%R.
Proof.
  split; [exact pair_planets_distinct |].
  destruct (duo_tick star_store true eq_refl eq_refl)
    as (h1 & h' & _ & _ & Hrun & Hp & _).
  exists h'. split; [exact Hrun |].
  assert (Hin : In 1%nat [1%nat]) by (cbn; tauto).
  assert (Hno : forall q, In q [1%nat] -> Obj.sun (star_store q) = false)
    by (intros q [<- | []]; reflexivity).
  pose proof (tick_distance_mixes_instants 0 1 [1%nat] star_store h'
                pair_planets_distinct Hin eq_refl Hno Hrun) as Hd.
  change (separation (star_store 1%nat) (h' 0%nat)
          = Ok (Obj.distance_to_sun (h' 1%nat))) in Hd.
  rewrite exact_separation in Hd. injection Hd as <-.
  pose proof (f_equal fst Hp) as Hx. pose proof (f_equal snd Hp) as Hy.
  unfold position in Hx, Hy. cbn [fst snd] in Hx, Hy.
  unfold distance. rewrite Hx, Hy. exact_simpl.
  pose proof pair_reach_bounds as Hc.
  replace ((pair_reach - 1) ^ 2 + (0 - 0) ^ 2)%R
    with ((1 - pair_reach) ^ 2)%R by ring.
  apply sqrt_pow2. lra.
Defined.

Lemma lone_planets_distinct : NoDup [0%nat].
Proof. repeat constructor. cbn. tauto. Qed.


Lemma trail_from_third_frame_witness :
  NoDup [0%nat] /\
  forall L : Libm,
    exists (h' : heap float) (pts : list (float * float)),
      run 3 [0%nat] (fun _ => body_at 5) = (Ok tt, h') /\
      In (Lines WHITE false pts 2)
         (fst (Planet.draw (plain_font float) (h' 0%nat))).
Proof.
  split; [exact lone_planets_distinct |]. intros L.
  assert (Hr : exists h',
             run 3 [0%nat] (fun _ => body_at 5) = (Ok tt, h') /\
             snd (Planet.draw (plain_font float) (h' 0%nat)) = Ok tt /\
             Obj.color (h' 0%nat) = WHITE).
  { eexists. split; [vm_compute; reflexivity |].
    split; vm_compute; reflexivity. }
  destruct Hr as (h' & Hrun & Hdraw & Hcol).
  assert (Hin : In 0%nat [0%nat]) by (cbn; tauto).
  destruct (proj2 (proj2 (trail_from_third_frame (plain_font float)
                            [0%nat] 0%nat 3%nat (fun _ => body_at 5) h'
                            lone_planets_distinct Hin eq_refl Hrun))
              (le_n 3) Hdraw) as [pts Hpts].
  exists h', pts. split; [exact Hrun |]. now rewrite <- Hcol.
Defined.
